(** * braillert: the command-line entry point [braillert/main.py]

    A shallow embedding of [main.py]: the resize helper, the exception
    handler decorator and the [main] function, run against the external
    collaborators (image library, generator, file system, console) that
    the module imports.  Every call that leaves the module is recorded
    in a trace of events, so that statements about what the program did
    and did not do can be read off the trace. *)

From Stdlib Require Import Reals Lra Psatz.
From Stdlib Require Import ZArith List String Ascii Bool Lia Floats.
From Stdlib Require Import SpecFloat.
Import ListNotations.
Local Open Scope string_scope.
Local Open Scope list_scope.
Local Open Scope Z_scope.

(** ** Python values used by [main.py] *)

Module Py.

(** Truth value of [Optional[int]], as tested by [if width:] and
    [if not width:]. *)
Definition truthy_int (o : option Z) : bool :=
  match o with
  | None => false
  | Some n => negb (n =? 0)
  end.

(** Truth value of [Optional[str]], as tested by [if arguments.out:]. *)
Definition truthy_str (o : option string) : bool :=
  match o with
  | None => false
  | Some "" => false
  | Some _ => true
  end.

(** [s.partition('\n')[0]] *)
Fixpoint first_line (s : string) : string :=
  match s with
  | EmptyString => EmptyString
  | String c rest =>
      if Ascii.eqb c "010"%char then EmptyString
      else String c (first_line rest)
  end.

(** [s.count(sub)]: occurrences of [sub] counted left to right without
    overlap; [skip] is the number of characters still covered by the
    occurrence found last. *)
Fixpoint count_from (skip : nat) (sub s : string) : nat :=
  match s with
  | EmptyString => 0
  | String _ rest =>
      match skip with
      | S k => count_from k sub rest
      | O =>
          if String.prefix sub s
          then S (count_from (Nat.pred (String.length sub)) sub rest)
          else count_from 0 sub rest
      end
  end.

Definition count (s sub : string) : nat := count_from 0 sub s.

(** [c * n] for a one-character string. *)
Fixpoint times (c : ascii) (n : nat) : string :=
  match n with
  | O => EmptyString
  | S k => String c (times c k)
  end.

(** The exceptions that can reach [_exception_handler].  The first two
    are the module's own; [KeyboardInterrupt], [SystemExit] and
    [GeneratorExit] derive from [BaseException] only; every other
    exception is an instance of [Exception] and carries its class name
    and the text [str(error)]. *)
Inductive exn : Type :=
| GifUnsupportedResizeError
| GifUnsupportedSaveError
| KeyboardInterrupt
| SystemExit (code : Z)
| GeneratorExit
| OtherException (cls msg : string).

(** [isinstance(e, Exception)] *)
Definition is_Exception (e : exn) : bool :=
  match e with
  | KeyboardInterrupt | SystemExit _ | GeneratorExit => false
  | _ => true
  end.

(** [str(error)] *)
Definition str (e : exn) : string :=
  match e with
  | OtherException _ msg => msg
  | _ => ""
  end.

(** [float(n)] for an [int]: the nearest binary64 value, ties to even;
    [OverflowError] when there is none. *)
Definition float_of_int (n : Z) : exn + float :=
  let f := SF2Prim (binary_normalize prec emax n 0 false) in
  if PrimFloat.is_infinity f
  then inl (OtherException "OverflowError" "int too large to convert to float")
  else inr f.

(** [int(x)] for a [float]: truncation towards zero. *)
Definition int_of_float (x : float) : exn + Z :=
  match Prim2SF x with
  | S754_zero _ => inr 0
  | S754_finite sign m e =>
      let a := if 0 <=? e then Z.pos m * 2 ^ e else Z.pos m / 2 ^ (- e) in
      inr (if sign then - a else a)
  | S754_infinity _ =>
      inl (OtherException "OverflowError" "cannot convert float infinity to integer")
  | S754_nan =>
      inl (OtherException "ValueError" "cannot convert float NaN to integer")
  end.

(** [a / b] on floats. *)
Definition truediv (a b : float) : exn + float :=
  if PrimFloat.eqb b 0%float
  then inl (OtherException "ZeroDivisionError" "float division by zero")
  else inr (PrimFloat.div a b).

End Py.

Import Py.

(** ** The collaborators [main.py] imports

    [PIL.Image], [braillert.generator], [braillert.colors], the package
    metadata, the logo file and the file system are outside the module.
    They are taken as an interface; the calls that can fail return an
    exception or a value. *)

Inductive printer : Type :=
| Console_print      (* [Console().print] of rich *)
| builtin_print.     (* [print] *)

Class Externals : Type := {
  Image : Type;
  Colors : Type;
  Duration : Type;
  (* PIL *)
  Image_size : Image -> Z * Z;
  Image_open : string -> exn + Image;
  Image_resize : Image -> Z * Z -> exn + Image;  (* with Image.Resampling.LANCZOS *)
  (* braillert.colors *)
  DISCORD_COLORS : Colors;
  COLORAMA_COLORS : Colors;
  COLORAMA_RESETTER : string;
  RICH_COLORS : Colors;
  RICH_RESETTER : string;
  (* braillert.generator: the two methods, on the constructor's arguments *)
  Generator_generate_art :
    Image -> option Colors -> string -> option Z -> exn + string;
  Generator_generate_gif_frames :
    Image -> option Colors -> string -> option Z -> exn + (list string * Duration);
  (* braillert.__init__ and logo.ansi *)
  __version__ : string;
  __author__ : string;
  __author_email__ : string;
  TEXT_LOGO : string;
  (* open(path, "w", encoding="utf-8"): the exception it raises, if any *)
  open_for_writing : string -> option exn
}.

(** [logger.info], [logger.success], [logger.error] *)
Inductive level : Type := INFO | SUCCESS | ERROR.

(** How a run ends: it returns, it raises, or it is still inside the
    playback loop when the iteration budget is used up. *)
Inductive result (A : Type) : Type :=
| Ret (a : A)
| Raise (e : exn)
| Running.
Arguments Ret {A} a.
Arguments Raise {A} e.
Arguments Running {A}.

Section Main.

Context {ext : Externals}.

(** Everything the module asks of the outside world, in order. *)
Inductive event : Type :=
| EvSetLevel (l : level)                       (* logger.setLevel(logging.ERROR) *)
| EvBanner (p : printer) (text : string)       (* logo, author line, delimiter *)
| EvLog (l : level) (msg : string)
| EvImageOpen (path : string)
| EvImageResize (image : Image) (size : Z * Z)
| EvGenerator (image : Image) (palette : option Colors)
              (resetter : string) (threshold : option Z)
| EvGenerateArt
| EvGenerateGifFrames
| EvFileOpen (path mode encoding : string)
| EvFileWrite (path data : string)
| EvModePrinter (p : printer) (text : string)  (* mode.printer(...) *)
| EvSleep (d : Duration).

Definition M (A : Type) : Type := (list event * result A)%type.

Definition ret {A} (a : A) : M A := ([], Ret a).
Definition raise {A} (e : exn) : M A := ([], Raise e).
Definition emit (ev : event) : M unit := ([ev], Ret tt).

Definition bind {A B} (m : M A) (k : A -> M B) : M B :=
  match m with
  | (t, Ret a) => let (t', r) := k a in (t ++ t', r)
  | (t, Raise e) => (t, Raise e)
  | (t, Running) => (t, Running)
  end.

(** An external call: the event, then the value or the exception. *)
Definition call {A} (ev : event) (r : exn + A) : M A :=
  match r with
  | inl e => ([ev], Raise e)
  | inr a => ([ev], Ret a)
  end.

(** A pure Python operation that can raise. *)
Definition lift {A} (r : exn + A) : M A :=
  match r with
  | inl e => raise e
  | inr a => ret a
  end.

End Main.

Declare Scope py_scope.
Delimit Scope py_scope with py.
Notation "x <- m ;; k" := (bind m (fun x => k))
  (at level 61, m at next level, right associativity) : py_scope.
Notation "m ;; k" := (bind m (fun _ => k))
  (at level 61, right associativity) : py_scope.
Local Open Scope py_scope.

Section Program.

Context {ext : Externals}.

(** ** Module-level data *)

Record Palette : Type := {
  p_printer : printer;
  palette : option Colors;
  resetter : string
}.

Inductive mode_name : Type := rich | colorama | discord | gs.

(** [palettes.get(arguments.mode)]; argparse restricts the mode to the
    keys of [palettes]. *)
Definition palettes (m : mode_name) : Palette :=
  match m with
  | rich =>
      {| p_printer := Console_print; palette := Some RICH_COLORS;
         resetter := RICH_RESETTER |}
  | colorama =>
      {| p_printer := builtin_print; palette := Some COLORAMA_COLORS;
         resetter := COLORAMA_RESETTER |}
  | discord =>
      {| p_printer := builtin_print; palette := Some DISCORD_COLORS;
         resetter := "" |}
  | gs =>
      {| p_printer := builtin_print; palette := None; resetter := "" |}
  end.

Definition LOGO_DELIMITER_LENGTH : nat := count (first_line TEXT_LOGO) "???".
Definition LOGO_DELIMITER : string := times "-"%char LOGO_DELIMITER_LENGTH.

(** The namespace returned by [argument_parser.parse_args()]. *)
Record Arguments : Type := {
  file_path : string;
  mode : mode_name;
  width : option Z;
  out : option string;
  threshold : option Z;
  disable_logging : bool;
  gif : bool;
  repeat : bool
}.

(** [parse_args] either returns the namespace or leaves through
    [sys.exit] (a missing [--file-path], a bad choice, [--help]). *)
Inductive parsed : Type :=
| ParseExit (code : Z)
| Parsed (arguments : Arguments).

(** ** [_resize_portrait] *)

Definition _resize_portrait (image : Image) (width : option Z) : M Image :=
  (* if not width: width = 100 *)
  let width := match width with
               | Some w => if truthy_int (Some w) then w else 100
               | None => 100
               end in
  size0 <- lift (float_of_int (fst (Image_size image))) ;;
  fwidth <- lift (float_of_int width) ;;
  wpercent <- lift (truediv fwidth size0) ;;
  size1 <- lift (float_of_int (snd (Image_size image))) ;;
  hsize <- lift (int_of_float (PrimFloat.mul size1 wpercent)) ;;
  call (EvImageResize image (width, hsize)) (Image_resize image (width, hsize)).

(** ** [_exception_handler] *)

Definition _exception_handler {A} (func : A -> M unit) (args : A) : M unit :=
  match func args with
  | (t, Ret _) => (t, Ret tt)
  | (t, Running) => (t, Running)
  | (t, Raise e) =>
      match e with
      | GifUnsupportedResizeError =>
          (t ++ [EvLog ERROR "Error! Gif resizing is not supported."], Ret tt)
      | GifUnsupportedSaveError =>
          (t ++ [EvLog ERROR "Error! Gif arts saving is not supported."], Ret tt)
      | KeyboardInterrupt => (t, Ret tt)
      | _ =>
          if is_Exception e
          then (t ++ [EvLog ERROR "Error! Unexpected exception caught:";
                      EvLog INFO (str e)], Ret tt)
          else (t, Raise e)
      end
  end.

(** ** [main] *)

(** The [for] loop over the frames. *)
Fixpoint for_frames (p : printer) (frames : list string) (d : Duration)
  : M unit :=
  match frames with
  | [] => ret tt
  | frame :: rest =>
      emit (EvModePrinter p frame) ;;
      emit (EvSleep d) ;;
      for_frames p rest d
  end.

(** The [while True] loop; [fuel] bounds the number of iterations
    observed. *)
Fixpoint playback (fuel : nat) (p : printer) (frames : list string)
         (d : Duration) (repeat : bool) : M unit :=
  match fuel with
  | O => ([], Running)
  | S fuel' =>
      for_frames p frames d ;;
      if negb repeat then ret tt else playback fuel' p frames d repeat
  end.

(** The body of [main], before decoration. *)
Definition main_wrapped (fuel : nat) (argv : parsed) : M unit :=
  match argv with
  | ParseExit code => raise (SystemExit code)
  | Parsed arguments =>
      let mode := palettes (mode arguments) in
      (if disable_logging arguments
       then emit (EvSetLevel ERROR)
       else
         emit (EvBanner Console_print TEXT_LOGO) ;;
         emit (EvBanner builtin_print
                 ("Author: " ++ __author__ ++ " <" ++ __author_email__
                  ++ ">  Version: " ++ __version__)%string) ;;
         emit (EvBanner builtin_print LOGO_DELIMITER)) ;;
      emit (EvLog INFO "Generating...") ;;
      image <- call (EvImageOpen (file_path arguments))
                    (Image_open (file_path arguments)) ;;
      image <- (if negb (gif arguments)
                then _resize_portrait image (width arguments)
                else ret image) ;;
      emit (EvGenerator image (palette mode) (resetter mode)
              (threshold arguments)) ;;
      generated <-
        (if gif arguments
         then
           if truthy_int (width arguments)
           then raise GifUnsupportedResizeError
           else if truthy_str (out arguments)
           then raise GifUnsupportedSaveError
           else
             animation <- call EvGenerateGifFrames
               (Generator_generate_gif_frames image (palette mode)
                  (resetter mode) (threshold arguments)) ;;
             ret (Some animation, None)
         else
           art <- call EvGenerateArt
             (Generator_generate_art image (palette mode)
                (resetter mode) (threshold arguments)) ;;
           ret (None, Some art)) ;;
      emit (EvLog SUCCESS "Generated!") ;;
      if truthy_str (out arguments)
      then
        let path := match out arguments with Some p => p | None => "" end in
        match open_for_writing path with
        | Some e => call (EvFileOpen path "w" "utf-8") (inl e)
        | None =>
            emit (EvFileOpen path "w" "utf-8") ;;
            match snd generated with
            | Some art =>
                emit (EvFileWrite path art) ;;
                emit (EvLog INFO ("Saved to -> " ++ path)%string)
            | None =>
                raise (OtherException "UnboundLocalError"
                         "local variable 'art' referenced before assignment")
            end
        end
      else if gif arguments
      then
        match fst generated with
        | Some (frames, frame_delay) =>
            playback fuel (p_printer mode) frames frame_delay
              (repeat arguments)
        | None =>
            raise (OtherException "UnboundLocalError"
                     "local variable 'animation' referenced before assignment")
        end
      else
        match snd generated with
        | Some art => emit (EvModePrinter (p_printer mode) art)
        | None =>
            raise (OtherException "UnboundLocalError"
                     "local variable 'art' referenced before assignment")
        end
  end.

Definition main (fuel : nat) (argv : parsed) : M unit :=
  _exception_handler (main_wrapped fuel) argv.

End Program.

(** ** Reading a trace *)

Section Observations.

Context {ext : Externals}.

(** The art reached a sink: the mode's printer or the output file. *)
Definition is_art_output (ev : event) : bool :=
  match ev with
  | EvModePrinter _ _ | EvFileOpen _ _ _ | EvFileWrite _ _ => true
  | _ => false
  end.

Definition is_file_event (ev : event) : bool :=
  match ev with
  | EvFileOpen _ _ _ | EvFileWrite _ _ => true
  | _ => false
  end.

Definition is_generate_gif_frames (ev : event) : bool :=
  match ev with
  | EvGenerateGifFrames => true
  | _ => false
  end.

Definition is_resize (ev : event) : bool :=
  match ev with
  | EvImageResize _ _ => true
  | _ => false
  end.

(** What every run does up to and including the call of
    [Image.open]. *)
Definition header (a : Arguments) : list event :=
  (if disable_logging a
   then [EvSetLevel ERROR]
   else [EvBanner Console_print TEXT_LOGO;
         EvBanner builtin_print
           ("Author: " ++ __author__ ++ " <" ++ __author_email__
            ++ ">  Version: " ++ __version__)%string;
         EvBanner builtin_print LOGO_DELIMITER])
  ++ [EvLog INFO "Generating..."; EvImageOpen (file_path a)].

(** The [Generator(...)] call of a run on [image]. *)
Definition generator_call (a : Arguments) (image : Image) : event :=
  EvGenerator image (palette (palettes (mode a)))
    (resetter (palettes (mode a))) (threshold a).

(** One pass over the frames: each printed, then the sleep. *)
Definition one_pass (p : printer) (frames : list string) (d : Duration)
  : list event :=
  flat_map (fun frame => [EvModePrinter p frame; EvSleep d]) frames.

(** Every [Generator(...)] call of the trace received an image
    satisfying [P]. *)
Definition generator_input_is (P : Image -> Prop) (t : list event) : Prop :=
  Forall (fun ev => match ev with
                    | EvGenerator image _ _ _ => P image
                    | _ => True
                    end) t.

(** Every resize of the trace asked for width [w]. *)
Definition resized_to_width (w : Z) (t : list event) : Prop :=
  Forall (fun ev => match ev with
                    | EvImageResize _ size => fst size = w
                    | _ => True
                    end) t.

End Observations.

(** ** The height computed by [_resize_portrait]

    The arithmetic of [_resize_portrait] on its own, and what is needed
    to compare it with the exact quotient: the real value of a binary64
    number and the position of a quotient left by the rounding of the
    format. *)

Definition portrait_height (W H w : Z) : exn + Z :=
  match float_of_int W with
  | inl e => inl e
  | inr size0 =>
      match float_of_int w with
      | inl e => inl e
      | inr fwidth =>
          match truediv fwidth size0 with
          | inl e => inl e
          | inr wpercent =>
              match float_of_int H with
              | inl e => inl e
              | inr size1 => int_of_float (PrimFloat.mul size1 wpercent)
              end
          end
      end
  end.

(** The value of a positive binary64 number with mantissa [m] and
    exponent [e], as a real. *)
Definition pow2 (e : Z) : R := powerRZ 2 e.

Definition fvalue (m : positive) (e : Z) : R := (IZR (Z.pos m) * pow2 e)%R.

(** The relative error of one rounding to nearest. *)
Definition roundoff : R := / IZR (2 ^ 53).

(** The record [mrs] is the integer part of [num / den] together with
    the position of the rest against one half. *)
Definition locates (mrs : shr_record) (num den : Z) : Prop :=
  0 < den /\ 0 <= shr_m mrs /\
  match shr_r mrs, shr_s mrs with
  | false, false => num - shr_m mrs * den = 0
  | false, true => 0 < 2 * (num - shr_m mrs * den) < den
  | true, false => 2 * (num - shr_m mrs * den) = den
  | true, true => den < 2 * (num - shr_m mrs * den) < 2 * den
  end.

(** ** The art assembler *)

Module Generator.

Definition rgb : Type := (Z * Z * Z)%type.

Record Image : Type := {
  width : Z;
  height : Z;
  pixel : Z -> Z -> rgb     (* column, then row *)
}.

Inductive Palette : Type :=
| NoStyle
| DirectColor (encode : rgb -> string) (reset : string)
| DiscretePalette (entries : list (rgb * string)) (sharedReset : string).

Definition BASE_CODEPOINT : Z := 10240.   (* U+2800 *)

(** A glyph with its styling and reset tokens. *)
Definition Triple : Type := (string * Z * string)%type.
Definition Art : Type := list (list Triple).

Definition in_bounds (img : Image) (x y : Z) : bool :=
  (0 <=? x) && (x <? width img) && (0 <=? y) && (y <? height img).

Definition luminance (c : rgb) : Z :=
  let '(r, g, b) := c in (299 * r + 587 * g + 114 * b) / 1000.

(** The eight sub-pixel positions of a cell in dot order: column 1 top
    to bottom, then column 2 top to bottom. *)
Definition dot_offsets : list (Z * Z) :=
  [(0, 0); (0, 1); (0, 2); (0, 3); (1, 0); (1, 1); (1, 2); (1, 3)].

(** Modelled from the spec: the pixel sampler of
    [braillert/generator.py], which is not among the sources.
    The pixel under each dot of the cell whose top left
    corner is [(x0, y0)]; a position past the image edge is padding. *)
Definition sample (img : Image) (x0 y0 : Z) : list (option rgb) :=
  map (fun d : Z * Z =>
         let x := x0 + fst d in
         let y := y0 + snd d in
         if in_bounds img x y then Some (pixel img x y) else None)
      dot_offsets.

(** Representative colour: the mean of the pixels inside the image. *)
Definition mean_color (ps : list (option rgb)) : rgb :=
  let inside := flat_map (fun p => match p with Some c => [c] | None => [] end) ps in
  let n := Z.of_nat (List.length inside) in
  let sum := fold_left (fun acc c =>
               let '(ar, ag, ab) := acc in
               let '(r, g, b) := c in (ar + r, ag + g, ab + b))
             inside (0, 0, 0) in
  let '(sr, sg, sb) := sum in
  if n =? 0 then (0, 0, 0) else (sr / n, sg / n, sb / n).

(** Modelled from the spec: the dot encoder of
    [braillert/generator.py], which is not among the sources.
    Bit [i] is set when position [i] is inside the image
    and at least as bright as the threshold. *)
Fixpoint dot_mask (threshold : Z) (bit : Z) (ps : list (option rgb)) : Z :=
  match ps with
  | [] => 0
  | p :: rest =>
      (match p with
       | Some c => if threshold <=? luminance c then bit else 0
       | None => 0
       end) + dot_mask threshold (2 * bit) rest
  end.

Definition glyph (threshold : Z) (ps : list (option rgb)) : Z :=
  BASE_CODEPOINT + dot_mask threshold 1 ps.

Definition distance (a b : rgb) : Z :=
  let '(ar, ag, ab) := a in
  let '(br, bg, bb) := b in
  (ar - br) * (ar - br) + (ag - bg) * (ag - bg) + (ab - bb) * (ab - bb).

(** Nearest palette entry; of two entries equally near the one
    declared first wins. *)
Fixpoint nearest (c : rgb) (best : rgb * string) (entries : list (rgb * string))
  : rgb * string :=
  match entries with
  | [] => best
  | e :: rest =>
      if distance c (fst e) <? distance c (fst best)
      then nearest c e rest
      else nearest c best rest
  end.

(** Modelled from the spec: the colour quantizer of
    [braillert/generator.py], which is not among the sources.  It
    returns the styling token and the reset token. *)
Definition quantize (p : Palette) (c : rgb) : string * string :=
  match p with
  | NoStyle => ("", "")
  | DirectColor encode reset => (encode c, reset)
  | DiscretePalette [] reset => ("", reset)
  | DiscretePalette (e :: rest) reset => (snd (nearest c e rest), reset)
  end.

(** Modelled from the spec: the iteration of [braillert/generator.py]
    over the image in cells, which is not among the sources.  The
    corners [0, step, 2 * step, ...] that lie below [extent]. *)
Fixpoint corners_from (fuel : nat) (start extent step : Z) : list Z :=
  match fuel with
  | O => []
  | S fuel' =>
      if start <? extent
      then start :: corners_from fuel' (start + step) extent step
      else []
  end.

Definition corners (extent step : Z) : list Z :=
  corners_from (Z.to_nat extent) 0 extent step.

Definition cell (img : Image) (p : Palette) (threshold : Z) (x0 y0 : Z)
  : Triple :=
  let ps := sample img x0 y0 in
  let tokens := quantize p (mean_color ps) in
  (fst tokens, glyph threshold ps, snd tokens).

(** Modelled from the spec: the art assembler of
    [braillert/generator.py] ([Generator.generate_art]), which is not
    among the sources.  Cells in row-major order, one line per row of
    cells; a cell at the right or bottom edge is padded, not dropped. *)
Definition assemble (img : Image) (p : Palette) (threshold : Z) : Art :=
  map (fun y0 => map (fun x0 => cell img p threshold x0 y0)
                     (corners (width img) 2))
      (corners (height img) 4).

(** [ceil(a / b)] for positive [b]. *)
Definition ceil_div (a b : Z) : Z := (a + b - 1) / b.

End Generator.

(** ** A concrete world

    Images are their sizes; three files exist; resizing returns an image
    of the size asked for; the generator returns fixed text. *)

Module Demo.

Definition open (path : string) : exn + (Z * Z) :=
  if String.eqb path "photo.jpg" then inr (640, 480)
  else if String.eqb path "tile.png" then inr (49, 49)
  else if String.eqb path "anim.gif" then inr (4, 4)
  else inl (OtherException "FileNotFoundError" "No such file or directory").

#[export] Instance world : Externals := {|
  Image := Z * Z;
  Colors := list (string * string);
  Duration := Z;
  Image_size := fun image => image;
  Image_open := open;
  Image_resize := fun _ size => inr size;
  DISCORD_COLORS := [];
  COLORAMA_COLORS := [];
  COLORAMA_RESETTER := "";
  RICH_COLORS := [];
  RICH_RESETTER := "[/]";
  Generator_generate_art := fun _ _ _ _ => inr "art";
  Generator_generate_gif_frames := fun _ _ _ _ => inr (["f1"; "f2"], 100);
  __version__ := "1.0";
  __author__ := "a";
  __author_email__ := "a@b";
  TEXT_LOGO := "??????";
  open_for_writing := fun _ => None
|}.

Definition args (path : string) (w : option Z) (o : option string)
           (g r : bool) : Arguments :=
  {| file_path := path; mode := gs; width := w; out := o;
     threshold := None; disable_logging := true; gif := g; repeat := r |}.

(** Command lines: [-fp anim.gif -m gs -dl -gf] with and without
    [-w] and [-o], and [-fp photo.jpg -m gs -dl] with [-o]. *)
Definition gif_plain := args "anim.gif" None None true false.
Definition gif_width := args "anim.gif" (Some 50) None true false.
Definition gif_width0 := args "anim.gif" (Some 0) None true false.
Definition gif_out := args "anim.gif" None (Some "out.txt") true false.
Definition gif_width_out :=
  args "anim.gif" (Some 50) (Some "out.txt") true false.
Definition gif_width0_out :=
  args "anim.gif" (Some 0) (Some "out.txt") true false.
Definition static_saved := args "photo.jpg" None (Some "out.txt") false false.
Definition static_empty_out := args "photo.jpg" None (Some "") false false.

(** The undecorated [main] in this world, with room for one pass of
    the playback loop. *)
Definition run : parsed -> M unit := main_wrapped (ext := world) 1.

(** A 5 by 7 image, every pixel mid grey. *)
Definition grey_5x7 : Generator.Image :=
  {| Generator.width := 5; Generator.height := 7;
     Generator.pixel := fun _ _ => (128, 128, 128) |}.

End Demo.

(** ** The paths through [main] *)

Section Paths.

Context {ext : Externals}.

Definition is_banner (ev : event) : bool :=
  match ev with
  | EvBanner _ _ => true
  | _ => false
  end.

Definition is_set_level (ev : event) : bool :=
  match ev with
  | EvSetLevel _ => true
  | _ => false
  end.

Definition is_log (ev : event) : bool :=
  match ev with
  | EvLog _ _ => true
  | _ => false
  end.

Definition is_generate_art (ev : event) : bool :=
  match ev with
  | EvGenerateArt => true
  | _ => false
  end.

(** The width [_resize_portrait] works with. *)
Definition target_width (o : option Z) : Z :=
  match o with
  | Some w => if w =? 0 then 100 else w
  | None => 100
  end.

(** The namespace with another [width], another [out]. *)
Definition with_width (a : Arguments) (w : option Z) : Arguments :=
  {| file_path := file_path a; mode := mode a; width := w; out := out a;
     threshold := threshold a; disable_logging := disable_logging a;
     gif := gif a; repeat := repeat a |}.

Definition with_out (a : Arguments) (o : option string) : Arguments :=
  {| file_path := file_path a; mode := mode a; width := width a; out := o;
     threshold := threshold a; disable_logging := disable_logging a;
     gif := gif a; repeat := repeat a |}.

(** The arguments [Generator(...)] and its methods are called with. *)
Definition generate_art_of (a : Arguments) (image : Image) : exn + string :=
  Generator_generate_art image (palette (palettes (mode a)))
    (resetter (palettes (mode a))) (threshold a).

Definition generate_gif_frames_of (a : Arguments) (image : Image)
  : exn + (list string * Duration) :=
  Generator_generate_gif_frames image (palette (palettes (mode a)))
    (resetter (palettes (mode a))) (threshold a).

(** The ten ways a run of the undecorated [main] on parsed arguments
    can go, each with what it did and how it ended. *)
Inductive path (fuel : nat) (a : Arguments) : M unit -> Prop :=
| path_open_fails (e : exn) :
    Image_open (file_path a) = inl e ->
    path fuel a (header a, Raise e)
| path_gif_width (image : Image) :
    Image_open (file_path a) = inr image ->
    gif a = true ->
    truthy_int (width a) = true ->
    path fuel a (header a ++ [generator_call a image],
                 Raise GifUnsupportedResizeError)
| path_gif_out (image : Image) :
    Image_open (file_path a) = inr image ->
    gif a = true ->
    truthy_int (width a) = false ->
    truthy_str (out a) = true ->
    path fuel a (header a ++ [generator_call a image],
                 Raise GifUnsupportedSaveError)
| path_gif_generate_fails (image : Image) (e : exn) :
    Image_open (file_path a) = inr image ->
    gif a = true ->
    truthy_int (width a) = false ->
    truthy_str (out a) = false ->
    generate_gif_frames_of a image = inl e ->
    path fuel a (header a ++ [generator_call a image; EvGenerateGifFrames],
                 Raise e)
| path_gif_play (image : Image) (frames : list string) (d : Duration) :
    Image_open (file_path a) = inr image ->
    gif a = true ->
    truthy_int (width a) = false ->
    truthy_str (out a) = false ->
    generate_gif_frames_of a image = inr (frames, d) ->
    path fuel a
      (header a
       ++ [generator_call a image; EvGenerateGifFrames;
           EvLog SUCCESS "Generated!"]
       ++ fst (playback fuel (p_printer (palettes (mode a))) frames d (repeat a)),
       snd (playback fuel (p_printer (palettes (mode a))) frames d (repeat a)))
| path_static_resize_fails (image : Image) (tr : list event) (e : exn) :
    Image_open (file_path a) = inr image ->
    gif a = false ->
    _resize_portrait image (width a) = (tr, Raise e) ->
    path fuel a (header a ++ tr, Raise e)
| path_static_generate_fails (image resized : Image) (tr : list event)
                             (e : exn) :
    Image_open (file_path a) = inr image ->
    gif a = false ->
    _resize_portrait image (width a) = (tr, Ret resized) ->
    generate_art_of a resized = inl e ->
    path fuel a (header a ++ tr ++ [generator_call a resized; EvGenerateArt],
                 Raise e)
| path_static_print (image resized : Image) (tr : list event) (art : string) :
    Image_open (file_path a) = inr image ->
    gif a = false ->
    _resize_portrait image (width a) = (tr, Ret resized) ->
    generate_art_of a resized = inr art ->
    truthy_str (out a) = false ->
    path fuel a
      (header a ++ tr
       ++ [generator_call a resized; EvGenerateArt; EvLog SUCCESS "Generated!";
           EvModePrinter (p_printer (palettes (mode a))) art],
       Ret tt)
| path_static_save (image resized : Image) (tr : list event)
                   (art file : string) :
    Image_open (file_path a) = inr image ->
    gif a = false ->
    _resize_portrait image (width a) = (tr, Ret resized) ->
    generate_art_of a resized = inr art ->
    out a = Some file ->
    file <> "" ->
    open_for_writing file = None ->
    path fuel a
      (header a ++ tr
       ++ [generator_call a resized; EvGenerateArt; EvLog SUCCESS "Generated!";
           EvFileOpen file "w" "utf-8"; EvFileWrite file art;
           EvLog INFO ("Saved to -> " ++ file)%string],
       Ret tt)
| path_static_save_fails (image resized : Image) (tr : list event)
                         (art file : string) (e : exn) :
    Image_open (file_path a) = inr image ->
    gif a = false ->
    _resize_portrait image (width a) = (tr, Ret resized) ->
    generate_art_of a resized = inr art ->
    out a = Some file ->
    file <> "" ->
    open_for_writing file = Some e ->
    path fuel a
      (header a ++ tr
       ++ [generator_call a resized; EvGenerateArt; EvLog SUCCESS "Generated!";
           EvFileOpen file "w" "utf-8"],
       Raise e).

End Paths.

(** Every character of the string is a dash. *)
Fixpoint all_dashes (s : string) : bool :=
  match s with
  | EmptyString => true
  | String c rest => Ascii.eqb c "-"%char && all_dashes rest
  end.

(** ** A world with a read-only disk and a broken image *)

Module Faulty.

#[export] Instance world : Externals := {|
  Image := Z * Z;
  Colors := list (string * string);
  Duration := Z;
  Image_size := fun image => image;
  Image_open := fun path =>
    if String.eqb path "empty.png" then inr (0, 10)
    else if String.eqb path "photo.jpg" then inr (640, 480)
    else inl (OtherException "UnidentifiedImageError" "cannot identify image file");
  Image_resize := fun _ size => inr size;
  DISCORD_COLORS := [];
  COLORAMA_COLORS := [];
  COLORAMA_RESETTER := "";
  RICH_COLORS := [];
  RICH_RESETTER := "[/]";
  Generator_generate_art := fun _ _ _ _ => inr "art";
  Generator_generate_gif_frames := fun _ _ _ _ => inr ([], 100);
  __version__ := "1.0";
  __author__ := "a";
  __author_email__ := "a@b";
  TEXT_LOGO := "??????";
  open_for_writing := fun _ =>
    Some (OtherException "PermissionError" "Permission denied")
|}.

Definition broken : Arguments :=
  {| file_path := "notes.txt"; mode := rich; width := Some 50;
     out := Some "out.txt"; threshold := None; disable_logging := false;
     gif := true; repeat := false |}.

Definition saved : Arguments :=
  {| file_path := "photo.jpg"; mode := rich; width := None;
     out := Some "out.txt"; threshold := Some 90; disable_logging := false;
     gif := false; repeat := false |}.

Definition quiet : Arguments :=
  {| file_path := "photo.jpg"; mode := gs; width := None;
     out := None; threshold := None; disable_logging := true;
     gif := false; repeat := true |}.

End Faulty.

(** * Properties *)

Section MonadFacts.

Context {ext : Externals}.

Lemma bind_ret {A B} (t : list event) (a : A) (k : A -> M B) :
  bind (t, Ret a) k = (t ++ fst (k a), snd (k a)).
Proof. unfold bind. destruct (k a); reflexivity. Qed.

Lemma bind_raise {A B} (t : list event) (e : exn) (k : A -> M B) :
  bind (t, Raise e) k = (t, Raise e).
Proof. reflexivity. Qed.

Lemma bind_emit {B} (ev : event) (k : unit -> M B) :
  bind (emit ev) k = (ev :: fst (k tt), snd (k tt)).
Proof. unfold emit. rewrite bind_ret. reflexivity. Qed.

Lemma fst_bind_emit {B} (ev : event) (k : unit -> M B) :
  fst (bind (emit ev) k) = ev :: fst (k tt).
Proof. rewrite bind_emit. reflexivity. Qed.

Lemma snd_bind_emit {B} (ev : event) (k : unit -> M B) :
  snd (bind (emit ev) k) = snd (k tt).
Proof. rewrite bind_emit. reflexivity. Qed.

End MonadFacts.

(** ** Playback *)

Section Playback.

Context {ext : Externals}.

Lemma for_frames_trace (p : printer) (frames : list string) (d : Duration) :
  for_frames p frames d = (one_pass p frames d, Ret tt).
Proof.
  induction frames as [|frame rest IH]; [reflexivity|].
  cbn [for_frames one_pass flat_map].
  rewrite !bind_emit, IH. reflexivity.
Qed.

Lemma playback_no_repeat (fuel : nat) (p : printer) (frames : list string)
      (d : Duration) :
  playback (S fuel) p frames d false = (one_pass p frames d, Ret tt).
Proof.
  cbn [playback]. rewrite for_frames_trace, bind_ret.
  cbn. rewrite app_nil_r. reflexivity.
Qed.

Lemma playback_repeat (fuel : nat) (p : printer) (frames : list string)
      (d : Duration) :
  playback fuel p frames d true
  = (List.concat (List.repeat (one_pass p frames d) fuel), Running).
Proof.
  induction fuel as [|fuel IH]; [reflexivity|].
  cbn [playback]. rewrite for_frames_trace, bind_ret.
  cbn [negb]. rewrite IH. reflexivity.
Qed.

(** C3: without the repeat flag the loop prints each frame once, in
    source order, sleeps [d] after each and returns; with the repeat
    flag it never returns, and after any number of iterations it has
    produced that same in-order sequence once per iteration. *)
Theorem playback_frames_in_order (p : printer) (frames : list string)
        (d : Duration) :
  (forall fuel, playback (S fuel) p frames d false
                = (flat_map (fun frame => [EvModePrinter p frame; EvSleep d])
                            frames, Ret tt))
  /\ (forall fuel, playback fuel p frames d true
                   = (List.concat (List.repeat
                        (flat_map (fun frame => [EvModePrinter p frame; EvSleep d])
                                  frames) fuel), Running)).
Proof.
  split; intro fuel.
  - apply playback_no_repeat.
  - apply playback_repeat.
Qed.

End Playback.

(** ** The exception handler *)

Section Handler.

Context {ext : Externals}.

Variable A : Type.
Variable func : A -> M unit.
Variable args : A.
Variable t : list event.

Lemma handler_returns (u : unit) :
  func args = (t, Ret u) -> _exception_handler func args = (t, Ret tt).
Proof. intro H. unfold _exception_handler. rewrite H. reflexivity. Qed.

Lemma handler_resize_error :
  func args = (t, Raise GifUnsupportedResizeError) ->
  _exception_handler func args
  = (t ++ [EvLog ERROR "Error! Gif resizing is not supported."], Ret tt).
Proof. intro H. unfold _exception_handler. rewrite H. reflexivity. Qed.

(** C4, as the handler is written: the two unsupported-combination
    errors, [KeyboardInterrupt] and every instance of [Exception] end
    the call without an exception, each with its own log records (none
    for [KeyboardInterrupt]); an exception outside [Exception], such as
    the [SystemExit] of argument parsing, passes through. *)
Theorem exception_handler_cases (e : exn) :
  func args = (t, Raise e) ->
  _exception_handler func args =
  match e with
  | GifUnsupportedResizeError =>
      (t ++ [EvLog ERROR "Error! Gif resizing is not supported."], Ret tt)
  | GifUnsupportedSaveError =>
      (t ++ [EvLog ERROR "Error! Gif arts saving is not supported."], Ret tt)
  | KeyboardInterrupt => (t, Ret tt)
  | OtherException _ msg =>
      (t ++ [EvLog ERROR "Error! Unexpected exception caught:"; EvLog INFO msg],
       Ret tt)
  | SystemExit _ | GeneratorExit => (t, Raise e)
  end.
Proof.
  intro H. unfold _exception_handler. rewrite H.
  destruct e; reflexivity.
Qed.

End Handler.

(** ** Runs of [main] *)

Section Runs.

Context {ext : Externals}.

Local Arguments _resize_portrait : simpl never.
Local Arguments playback : simpl never.

Variable fuel : nat.
Variable a : Arguments.

Ltac run_main :=
  unfold main_wrapped, header, generator_call;
  destruct (disable_logging a); cbn;
  repeat (match goal with
          | H : _ = _ |- _ => rewrite H
          end; cbn);
  try reflexivity;
  try (destruct (playback _ _ _ _ _); reflexivity).

Lemma run_open_fails (e : exn) :
  Image_open (file_path a) = inl e ->
  main_wrapped fuel (Parsed a) = (header a, Raise e).
Proof. intros Hopen. run_main. Qed.

Lemma run_gif_width (image : Image) :
  Image_open (file_path a) = inr image ->
  gif a = true ->
  truthy_int (width a) = true ->
  main_wrapped fuel (Parsed a)
  = (header a ++ [generator_call a image], Raise GifUnsupportedResizeError).
Proof. intros Hopen Hgif Hw. run_main. Qed.

Lemma run_gif_out (image : Image) :
  Image_open (file_path a) = inr image ->
  gif a = true ->
  truthy_int (width a) = false ->
  truthy_str (out a) = true ->
  main_wrapped fuel (Parsed a)
  = (header a ++ [generator_call a image], Raise GifUnsupportedSaveError).
Proof. intros Hopen Hgif Hw Hout. run_main. Qed.

Lemma run_gif_generate_fails (image : Image) (e : exn) :
  Image_open (file_path a) = inr image ->
  gif a = true ->
  truthy_int (width a) = false ->
  truthy_str (out a) = false ->
  Generator_generate_gif_frames image (palette (palettes (mode a)))
    (resetter (palettes (mode a))) (threshold a) = inl e ->
  main_wrapped fuel (Parsed a)
  = (header a ++ [generator_call a image; EvGenerateGifFrames], Raise e).
Proof. intros Hopen Hgif Hw Hout Hgen. run_main. Qed.

Lemma run_gif_play (image : Image) (frames : list string) (d : Duration) :
  Image_open (file_path a) = inr image ->
  gif a = true ->
  truthy_int (width a) = false ->
  truthy_str (out a) = false ->
  Generator_generate_gif_frames image (palette (palettes (mode a)))
    (resetter (palettes (mode a))) (threshold a) = inr (frames, d) ->
  main_wrapped fuel (Parsed a)
  = (header a
     ++ [generator_call a image; EvGenerateGifFrames; EvLog SUCCESS "Generated!"]
     ++ fst (playback fuel (p_printer (palettes (mode a))) frames d (repeat a)),
     snd (playback fuel (p_printer (palettes (mode a))) frames d (repeat a))).
Proof. intros Hopen Hgif Hw Hout Hgen. run_main. Qed.

Lemma run_static_resize_fails (image : Image) (tr : list event) (e : exn) :
  Image_open (file_path a) = inr image ->
  gif a = false ->
  _resize_portrait image (width a) = (tr, Raise e) ->
  main_wrapped fuel (Parsed a) = (header a ++ tr, Raise e).
Proof. intros Hopen Hgif Hres. run_main. Qed.

Lemma run_static_generate_fails (image resized : Image) (tr : list event)
      (e : exn) :
  Image_open (file_path a) = inr image ->
  gif a = false ->
  _resize_portrait image (width a) = (tr, Ret resized) ->
  Generator_generate_art resized (palette (palettes (mode a)))
    (resetter (palettes (mode a))) (threshold a) = inl e ->
  main_wrapped fuel (Parsed a)
  = (header a ++ tr ++ [generator_call a resized; EvGenerateArt], Raise e).
Proof. intros Hopen Hgif Hres Hgen. run_main. Qed.

Lemma run_static_print (image resized : Image) (tr : list event)
      (art : string) :
  Image_open (file_path a) = inr image ->
  gif a = false ->
  _resize_portrait image (width a) = (tr, Ret resized) ->
  Generator_generate_art resized (palette (palettes (mode a)))
    (resetter (palettes (mode a))) (threshold a) = inr art ->
  truthy_str (out a) = false ->
  main_wrapped fuel (Parsed a)
  = (header a ++ tr
     ++ [generator_call a resized; EvGenerateArt; EvLog SUCCESS "Generated!";
         EvModePrinter (p_printer (palettes (mode a))) art],
     Ret tt).
Proof. intros Hopen Hgif Hres Hgen Hout. run_main. Qed.

Lemma run_static_save (image resized : Image) (tr : list event)
      (art path : string) :
  Image_open (file_path a) = inr image ->
  gif a = false ->
  _resize_portrait image (width a) = (tr, Ret resized) ->
  Generator_generate_art resized (palette (palettes (mode a)))
    (resetter (palettes (mode a))) (threshold a) = inr art ->
  out a = Some path ->
  path <> "" ->
  open_for_writing path = None ->
  main_wrapped fuel (Parsed a)
  = (header a ++ tr
     ++ [generator_call a resized; EvGenerateArt; EvLog SUCCESS "Generated!";
         EvFileOpen path "w" "utf-8"; EvFileWrite path art;
         EvLog INFO ("Saved to -> " ++ path)%string],
     Ret tt).
Proof.
  intros Hopen Hgif Hres Hgen Hout Hpath Hfile.
  destruct path as [|c rest]; [congruence|].
  run_main.
Qed.

Lemma run_static_save_fails (image resized : Image) (tr : list event)
      (art path : string) (e : exn) :
  Image_open (file_path a) = inr image ->
  gif a = false ->
  _resize_portrait image (width a) = (tr, Ret resized) ->
  Generator_generate_art resized (palette (palettes (mode a)))
    (resetter (palettes (mode a))) (threshold a) = inr art ->
  out a = Some path ->
  path <> "" ->
  open_for_writing path = Some e ->
  main_wrapped fuel (Parsed a)
  = (header a ++ tr
     ++ [generator_call a resized; EvGenerateArt; EvLog SUCCESS "Generated!";
         EvFileOpen path "w" "utf-8"],
     Raise e).
Proof.
  intros Hopen Hgif Hres Hgen Hout Hpath Hfile.
  destruct path as [|c rest]; [congruence|].
  run_main.
Qed.

End Runs.

(** ** What a trace can contain *)

Section TraceFacts.

Context {ext : Externals}.

Lemma header_events (P : event -> bool) (a : Arguments) :
  (forall l, P (EvSetLevel l) = false) ->
  (forall p s, P (EvBanner p s) = false) ->
  (forall l s, P (EvLog l s) = false) ->
  (forall s, P (EvImageOpen s) = false) ->
  existsb P (header a) = false.
Proof.
  intros H1 H2 H3 H4. unfold header.
  destruct (disable_logging a); cbn; now rewrite ?H1, ?H2, ?H3, ?H4.
Qed.

Lemma header_filter (P : event -> bool) (a : Arguments) :
  (forall l, P (EvSetLevel l) = false) ->
  (forall p s, P (EvBanner p s) = false) ->
  (forall l s, P (EvLog l s) = false) ->
  (forall s, P (EvImageOpen s) = false) ->
  filter P (header a) = [].
Proof.
  intros H1 H2 H3 H4. unfold header.
  destruct (disable_logging a); cbn; now rewrite ?H1, ?H2, ?H3, ?H4.
Qed.

Lemma for_frames_events (P : event -> bool) (p : printer)
      (frames : list string) (d : Duration) :
  (forall s, P (EvModePrinter p s) = false) ->
  P (EvSleep d) = false ->
  existsb P (one_pass p frames d) = false.
Proof.
  intros H1 H2. induction frames as [|frame rest IH]; [reflexivity|].
  cbn. now rewrite H1, H2.
Qed.

Lemma playback_events (P : event -> bool) (fuel : nat) (p : printer)
      (frames : list string) (d : Duration) (r : bool) :
  (forall s, P (EvModePrinter p s) = false) ->
  P (EvSleep d) = false ->
  existsb P (fst (playback fuel p frames d r)) = false.
Proof.
  intros H1 H2. induction fuel as [|fuel IH]; [reflexivity|].
  cbn [playback]. rewrite for_frames_trace, bind_ret. cbn [fst].
  rewrite existsb_app, for_frames_events by assumption.
  destruct r; cbn [negb orb]; [exact IH | reflexivity].
Qed.

Lemma existsb_false_Forall (P : event -> bool) (Q : event -> Prop)
      (t : list event) :
  (forall ev, P ev = false -> Q ev) ->
  existsb P t = false -> Forall Q t.
Proof.
  intros HPQ. induction t as [|ev t IH]; cbn; intro H; constructor.
  - apply HPQ. now destruct (P ev).
  - apply IH. now destruct (P ev).
Qed.

End TraceFacts.

(** ** Animated conversion: the unsupported combinations *)

Section GifChecks.

Context {ext : Externals}.

Variable fuel : nat.
Variable a : Arguments.
Hypothesis Hgif : gif a = true.

Ltac quiet_header :=
  rewrite ?existsb_app, ?header_events by reflexivity; cbn.

(** C1, as the code has it: a gif run with a width override other than
    0 never calls [generate_gif_frames] and never sends art to a sink,
    and once the image has been opened it raises
    [GifUnsupportedResizeError]. *)
Theorem gif_width_rejected (w : Z) :
  width a = Some w -> w <> 0 ->
  existsb is_generate_gif_frames (fst (main_wrapped fuel (Parsed a))) = false
  /\ existsb is_art_output (fst (main_wrapped fuel (Parsed a))) = false
  /\ (forall image, Image_open (file_path a) = inr image ->
      snd (main_wrapped fuel (Parsed a)) = Raise GifUnsupportedResizeError).
Proof.
  intros Hw Hnz.
  assert (Ht : truthy_int (width a) = true).
  { rewrite Hw. cbn. now apply negb_true_iff, Z.eqb_neq. }
  destruct (Image_open (file_path a)) as [e|image] eqn:Hopen.
  - rewrite (run_open_fails fuel a e Hopen). cbn [fst snd].
    repeat split; try (now quiet_header); intros; discriminate.
  - rewrite (run_gif_width fuel a image Hopen Hgif Ht). cbn [fst snd].
    repeat split; now quiet_header.
Qed.

(** C2, as the code has it: a gif run with a non-empty output path
    never calls [generate_gif_frames] and never opens or writes a file;
    when no width other than 0 is given as well, it raises
    [GifUnsupportedSaveError] once the image has been opened. *)
Theorem gif_out_rejected (path : string) :
  out a = Some path -> path <> "" ->
  existsb is_generate_gif_frames (fst (main_wrapped fuel (Parsed a))) = false
  /\ existsb is_file_event (fst (main_wrapped fuel (Parsed a))) = false
  /\ (truthy_int (width a) = false ->
      forall image, Image_open (file_path a) = inr image ->
      snd (main_wrapped fuel (Parsed a)) = Raise GifUnsupportedSaveError).
Proof.
  intros Hout Hpath.
  assert (Ht : truthy_str (out a) = true).
  { rewrite Hout. destruct path; [congruence | reflexivity]. }
  destruct (Image_open (file_path a)) as [e|image] eqn:Hopen.
  - rewrite (run_open_fails fuel a e Hopen). cbn [fst snd].
    repeat split; try (now quiet_header); intros; discriminate.
  - destruct (truthy_int (width a)) eqn:Hw.
    + rewrite (run_gif_width fuel a image Hopen Hgif Hw). cbn [fst snd].
      repeat split; try (now quiet_header); intros; discriminate.
    + rewrite (run_gif_out fuel a image Hopen Hgif Hw Ht). cbn [fst snd].
      repeat split; now quiet_header.
Qed.

(** C10, as the code has it: with a width override other than 0 and an
    output path both given, a gif run whose image opens raises
    [GifUnsupportedResizeError]; the decorated [main] logs the resize
    message and nothing about saving. *)
Theorem gif_width_checked_before_out (w : Z) (path : string) (image : Image) :
  width a = Some w -> w <> 0 -> out a = Some path ->
  Image_open (file_path a) = inr image ->
  snd (main_wrapped fuel (Parsed a)) = Raise GifUnsupportedResizeError
  /\ main fuel (Parsed a)
     = (header a ++ [generator_call a image;
                     EvLog ERROR "Error! Gif resizing is not supported."],
        Ret tt).
Proof.
  intros Hw Hnz _ Hopen.
  assert (Ht : truthy_int (width a) = true).
  { rewrite Hw. cbn. now apply negb_true_iff, Z.eqb_neq. }
  pose proof (run_gif_width fuel a image Hopen Hgif Ht) as Hrun.
  split.
  - now rewrite Hrun.
  - unfold main.
    rewrite (handler_resize_error _ _ _ _ Hrun).
    now rewrite <- app_assoc.
Qed.

(** C7: in a gif run nothing is resized, and the image given to
    [Generator] is the one [Image.open] returned. *)
Theorem gif_never_resizes :
  existsb is_resize (fst (main_wrapped fuel (Parsed a))) = false
  /\ generator_input_is
       (fun image => Image_open (file_path a) = inr image)
       (fst (main_wrapped fuel (Parsed a))).
Proof.
  assert (Hgen : forall t image,
             Image_open (file_path a) = inr image ->
             existsb (fun ev => match ev with
                                | EvGenerator _ _ _ _ => true
                                | _ => false
                                end) t = false ->
             generator_input_is
               (fun image => Image_open (file_path a) = inr image)
               (header a ++ generator_call a image :: t)).
  { intros t image Hopen Ht. unfold generator_input_is.
    apply Forall_app; split; [|constructor; [exact Hopen|]].
    - eapply existsb_false_Forall; [|apply header_events with
        (P := fun ev => match ev with EvGenerator _ _ _ _ => true | _ => false end);
        reflexivity].
      intros [] H; try exact I; discriminate H.
    - eapply existsb_false_Forall; [|exact Ht].
      intros [] H; try exact I; discriminate H. }
  destruct (Image_open (file_path a)) as [e|image] eqn:Hopen.
  - rewrite (run_open_fails fuel a e Hopen). cbn [fst].
    split; [now quiet_header|].
    eapply existsb_false_Forall; [|apply header_events with
      (P := fun ev => match ev with EvGenerator _ _ _ _ => true | _ => false end);
      reflexivity].
    intros [] H; try exact I; discriminate H.
  - destruct (truthy_int (width a)) eqn:Hw.
    { rewrite (run_gif_width fuel a image Hopen Hgif Hw). cbn [fst].
      split; [now quiet_header | now apply Hgen]. }
    destruct (truthy_str (out a)) eqn:Hout.
    { rewrite (run_gif_out fuel a image Hopen Hgif Hw Hout). cbn [fst].
      split; [now quiet_header | now apply Hgen]. }
    destruct (Generator_generate_gif_frames image (palette (palettes (mode a)))
                (resetter (palettes (mode a))) (threshold a))
      as [e|[frames d]] eqn:Hframes.
    { rewrite (run_gif_generate_fails fuel a image e Hopen Hgif Hw Hout Hframes).
      cbn [fst]. split; [now quiet_header | now apply Hgen]. }
    rewrite (run_gif_play fuel a image frames d Hopen Hgif Hw Hout Hframes).
    cbn [fst]. split.
    + rewrite !existsb_app, header_events by reflexivity.
      cbn. now apply playback_events.
    + apply Hgen; [reflexivity|]. cbn. now apply playback_events.
Qed.

End GifChecks.

(** ** Rounding of the binary64 format *)

Lemma digits2_pos_bounds (p : positive) :
  2 ^ (Z.pos (digits2_pos p) - 1) <= Z.pos p < 2 ^ Z.pos (digits2_pos p).
Proof.
  induction p as [p IH|p IH|]; cbn [digits2_pos].
  - rewrite Pos2Z.inj_succ.
    replace (Z.succ (Z.pos (digits2_pos p)) - 1)
      with (Z.succ (Z.pos (digits2_pos p) - 1)) by lia.
    rewrite !Z.pow_succ_r by lia. lia.
  - rewrite Pos2Z.inj_succ.
    replace (Z.succ (Z.pos (digits2_pos p)) - 1)
      with (Z.succ (Z.pos (digits2_pos p) - 1)) by lia.
    rewrite !Z.pow_succ_r by lia. lia.
  - cbn. lia.
Qed.

Lemma digits2_pos_unique (p : positive) (d : Z) :
  2 ^ (d - 1) <= Z.pos p < 2 ^ d -> Z.pos (digits2_pos p) = d.
Proof.
  intros [Hlo Hhi].
  pose proof (digits2_pos_bounds p) as [Hlo' Hhi'].
  assert (0 < d).
  { destruct (Z.ltb_spec 0 d); [assumption|].
    destruct (Z.eq_dec d 0) as [->|]; [cbn in Hhi; lia|].
    rewrite Z.pow_neg_r in Hhi by lia. lia. }
  destruct (Z.lt_trichotomy (Z.pos (digits2_pos p)) d) as [Hlt|[Heq|Hgt]];
    [|assumption|].
  - assert (2 ^ Z.pos (digits2_pos p) <= 2 ^ (d - 1))
      by (apply Z.pow_le_mono_r; lia). lia.
  - assert (2 ^ d <= 2 ^ (Z.pos (digits2_pos p) - 1))
      by (apply Z.pow_le_mono_r; lia). lia.
Qed.


Lemma shr_1_locates (mrs : shr_record) (num den : Z) :
  locates mrs num den -> locates (shr_1 mrs) num (2 * den).
Proof.
  destruct mrs as [m r s]. unfold locates. cbn [shr_m shr_r shr_s].
  intros (Hden & Hm & Hk).
  destruct m as [|[p|p|]|p]; try lia;
    destruct r, s; cbn [shr_1 shr_m shr_r shr_s orb];
    repeat split; try lia.
Qed.

Lemma iter_shr_1_locates (p : positive) (mrs : shr_record) (num den : Z) :
  locates mrs num den ->
  locates (iter_pos shr_1 p mrs) num (den * 2 ^ Z.pos p).
Proof.
  revert mrs den. induction p as [p IH|p IH|]; intros mrs den H;
    cbn [iter_pos].
  - apply shr_1_locates in H. apply IH in H. apply IH in H.
    replace (den * 2 ^ Z.pos p~1) with (2 * den * 2 ^ Z.pos p * 2 ^ Z.pos p);
      [exact H|].
    rewrite (Pos2Z.inj_xI p).
    replace (2 * Z.pos p + 1) with (Z.pos p + Z.pos p + 1) by lia.
    rewrite !Z.pow_add_r by lia. ring.
  - apply IH in H. apply IH in H.
    replace (den * 2 ^ Z.pos p~0) with (den * 2 ^ Z.pos p * 2 ^ Z.pos p);
      [exact H|].
    rewrite (Pos2Z.inj_xO p).
    replace (2 * Z.pos p) with (Z.pos p + Z.pos p) by lia.
    rewrite !Z.pow_add_r by lia. ring.
  - apply shr_1_locates in H.
    replace (den * 2 ^ 1) with (2 * den)
      by (change (2 ^ 1) with 2; lia).
    exact H.
Qed.

Lemma shr_locates (mrs : shr_record) (e n num den : Z) :
  0 <= n ->
  locates mrs num den ->
  locates (fst (shr mrs e n)) num (den * 2 ^ n) /\ snd (shr mrs e n) = e + n.
Proof.
  intros Hn H. destruct n as [|p|p]; [| |lia]; cbn [shr fst snd].
  - rewrite Z.mul_1_r. split; [exact H | lia].
  - split; [now apply iter_shr_1_locates | reflexivity].
Qed.

Lemma locates_of_loc_exact (m : Z) :
  0 <= m -> locates (shr_record_of_loc m loc_Exact) m 1.
Proof. intro H. unfold locates. cbn. lia. Qed.

Lemma round_nearest_even_close (mrs : shr_record) (num den : Z) :
  locates mrs num den ->
  let m' := round_nearest_even (shr_m mrs) (loc_of_shr_record mrs) in
  shr_m mrs <= m' <= shr_m mrs + 1
  /\ - den <= 2 * (m' * den - num) <= den.
Proof.
  destruct mrs as [m r s]. unfold locates. cbn [shr_m shr_r shr_s].
  intros (Hden & Hm & Hk).
  destruct r, s; cbn [loc_of_shr_record round_nearest_even];
    try destruct (Z.even m); lia.
Qed.

Lemma locates_floor (mrs : shr_record) (num den : Z) :
  locates mrs num den ->
  shr_m mrs * den <= num < (shr_m mrs + 1) * den.
Proof.
  destruct mrs as [m r s]. unfold locates. cbn [shr_m shr_r shr_s].
  intros (Hden & Hm & Hk). destruct r, s; lia.
Qed.


Lemma shr_m_of_loc (m : Z) (l : location) : shr_m (shr_record_of_loc m l) = m.
Proof. destruct l as [|[]]; reflexivity. Qed.

Lemma fexp_normal (e : Z) :
  SpecFloat.emin prec emax <= e - prec -> fexp prec emax e = e - prec.
Proof. unfold fexp. lia. Qed.

Lemma emin_value : SpecFloat.emin prec emax = -1074.
Proof. reflexivity. Qed.

(** Rounding a positive mantissa of at least 53 digits, away from the
    subnormal range and from overflow: the result is a normal number
    within half a unit in the last place. *)
Lemma binary_round_aux_normal (sx : bool) (mx ex : Z) (lx : location)
      (num den n : Z) :
  0 < mx ->
  locates (shr_record_of_loc mx lx) num den ->
  Zdigits2 mx = 53 + n -> 0 <= n ->
  -1074 <= ex + n ->
  ex + n + 1 <= 971 ->
  exists (m' : positive) (e' : Z),
    binary_round_aux prec emax sx mx ex lx = S754_finite sx m' e'
    /\ SpecFloat.valid_binary prec emax (S754_finite sx m' e') = true
    /\ 2 ^ 52 <= Z.pos m' < 2 ^ 53
    /\ ex + n <= e' <= ex + n + 1
    /\ - (den * 2 ^ n)
       <= 2 * (Z.pos m' * 2 ^ (e' - ex - n) * (den * 2 ^ n) - num)
       <= den * 2 ^ n.
Proof.
  intros Hmx Hloc Hdig Hn Hlo Hhi.
  unfold binary_round_aux, shr_fexp.
  rewrite Hdig, fexp_normal by (rewrite emin_value; unfold prec; lia).
  replace (53 + n + ex - prec - ex) with n by (unfold prec; lia).
  destruct (shr_locates _ ex n num den Hn Hloc) as [Hloc1 He1].
  destruct (shr (shr_record_of_loc mx lx) ex n) as [mrs1 e1].
  cbn [fst snd] in Hloc1, He1. subst e1.
  pose proof (locates_floor _ _ _ Hloc) as Hfl0.
  rewrite shr_m_of_loc in Hfl0.
  pose proof (locates_floor _ _ _ Hloc1) as Hfl1.
  destruct (round_nearest_even_close _ _ _ Hloc1) as [Hm2 Herr].
  set (m1 := shr_m mrs1) in *.
  set (m2 := round_nearest_even m1 (loc_of_shr_record mrs1)) in *.
  assert (Hden : 0 < den) by apply Hloc.
  assert (Hpn : 0 < 2 ^ n) by (apply Z.pow_pos_nonneg; lia).
  assert (Hm1 : 2 ^ 52 <= m1 < 2 ^ 53).
  { destruct mx as [|p|p]; try lia. cbn [Zdigits2] in Hdig.
    pose proof (digits2_pos_bounds p) as Hd. rewrite Hdig in Hd.
    replace (53 + n - 1) with (52 + n) in Hd by lia.
    rewrite !Z.pow_add_r in Hd by lia.
    assert (m1 * 2 ^ n <= Z.pos p) by nia.
    assert (Z.pos p < (m1 + 1) * 2 ^ n) by nia.
    split; nia. }
  destruct (Z.eq_dec m2 (2 ^ 53)) as [Hcarry|Hnocarry].
  - (* the mantissa reached 2^53 *)
    rewrite Hcarry.
    change (Zdigits2 (2 ^ 53)) with 54.
    rewrite fexp_normal by (rewrite emin_value; unfold prec; lia).
    replace (54 + (ex + n) - prec - (ex + n)) with 1 by (unfold prec; lia).
    cbn [shr shr_record_of_loc iter_pos].
    change (shr_m (shr_1 {| shr_m := 2 ^ 53; shr_r := false; shr_s := false |}))
      with (Z.pos (Pos.pow 2 52)).
    replace (ex + n + 1 <=? emax - prec) with true
      by (symmetry; apply Z.leb_le; unfold emax, prec; lia).
    exists (Pos.pow 2 52), (ex + n + 1).
    split; [reflexivity|]. split.
    { unfold SpecFloat.valid_binary, bounded, canonical_mantissa.
      change (Z.pos (digits2_pos (2 ^ 52))) with 53.
      rewrite fexp_normal by (rewrite emin_value; unfold prec; lia).
      apply andb_true_iff. split; [apply Z.eqb_eq | apply Z.leb_le];
        unfold emax, prec; lia. }
    split; [cbn; lia|]. split; [lia|].
    replace (ex + n + 1 - ex - n) with 1 by lia.
    change (Z.pos (2 ^ 52) * 2 ^ 1) with (2 ^ 53).
    rewrite <- Hcarry. lia.
  - assert (Hm2' : 2 ^ 52 <= m2 < 2 ^ 53) by lia.
    destruct m2 as [|p|p] eqn:Em2; try lia.
    assert (Hdp : Z.pos (digits2_pos p) = 53)
      by (apply digits2_pos_unique; exact Hm2').
    cbn [Zdigits2]. rewrite Hdp.
    rewrite fexp_normal by (rewrite emin_value; unfold prec; lia).
    replace (53 + (ex + n) - prec - (ex + n)) with 0 by (unfold prec; lia).
    cbn [shr shr_record_of_loc shr_m].
    replace (ex + n <=? emax - prec) with true
      by (symmetry; apply Z.leb_le; unfold emax, prec; lia).
    exists p, (ex + n).
    split; [reflexivity|]. split.
    { unfold SpecFloat.valid_binary, bounded, canonical_mantissa. rewrite Hdp.
      rewrite fexp_normal by (rewrite emin_value; unfold prec; lia).
      apply andb_true_iff. split; [apply Z.eqb_eq | apply Z.leb_le];
        unfold emax, prec; lia. }
    split; [exact Hm2'|]. split; [lia|].
    replace (ex + n - ex - n) with 0 by lia.
    rewrite Z.pow_0_r, Z.mul_1_r. exact Herr.
Qed.

(** ** Integers as binary64 numbers *)

Lemma iter_xO_value (p k : positive) :
  Z.pos (Pos.iter xO p k) = Z.pos p * 2 ^ Z.pos k.
Proof.
  induction k as [|k IH] using Pos.peano_ind.
  - cbn [Pos.iter]. change (2 ^ 1) with 2. lia.
  - rewrite Pos.iter_succ, Pos2Z.inj_xO, IH, Pos2Z.inj_succ,
      Z.pow_succ_r by lia. ring.
Qed.

Lemma prim_infinity : Prim2SF infinity = S754_infinity false.
Proof. reflexivity. Qed.

Lemma prim_zero : Prim2SF 0%float = S754_zero false.
Proof. reflexivity. Qed.

Lemma is_infinity_finite (x : float) (s : bool) (m : positive) (e : Z) :
  Prim2SF x = S754_finite s m e -> PrimFloat.is_infinity x = false.
Proof.
  intro H. unfold PrimFloat.is_infinity.
  rewrite eqb_spec, abs_spec, H, prim_infinity. reflexivity.
Qed.

Lemma eqb_zero_finite (x : float) (s : bool) (m : positive) (e : Z) :
  Prim2SF x = S754_finite s m e -> PrimFloat.eqb x 0%float = false.
Proof.
  intro H. rewrite eqb_spec, H, prim_zero. cbn. now destruct s.
Qed.

(** A positive integer below 2^53 converts without rounding, to a
    number with a 53-digit mantissa. *)
Lemma float_of_int_exact (n : Z) :
  0 < n < 2 ^ 53 ->
  exists (x : float) (m : positive) (k : Z),
    float_of_int n = inr x
    /\ Prim2SF x = S754_finite false m (- k)
    /\ 2 ^ 52 <= Z.pos m < 2 ^ 53
    /\ 0 <= k <= 52
    /\ Z.pos m = n * 2 ^ k.
Proof.
  intros [Hpos Hlt]. destruct n as [|p|p]; try lia.
  pose proof (digits2_pos_bounds p) as Hd.
  set (d := Z.pos (digits2_pos p)) in *.
  assert (Hd53 : 1 <= d <= 53).
  { split; [unfold d; lia|].
    destruct (Z.leb_spec d 53); [assumption|].
    assert (2 ^ 53 <= 2 ^ (d - 1)) by (apply Z.pow_le_mono_r; lia). lia. }
  assert (Hround : exists m : positive,
             binary_normalize prec emax (Z.pos p) 0 false
             = S754_finite false m (d - 53)
             /\ SpecFloat.valid_binary prec emax (S754_finite false m (d - 53))
                = true
             /\ 2 ^ 52 <= Z.pos m < 2 ^ 53
             /\ Z.pos m = Z.pos p * 2 ^ (53 - d)).
  { cbn [binary_normalize]. unfold binary_round. fold d.
    rewrite Z.add_0_r, fexp_normal by (rewrite emin_value; unfold prec; lia).
    unfold shl_align.
    assert (Hval : forall mz : positive,
               Z.pos mz = Z.pos p * 2 ^ (53 - d) ->
               exists m : positive,
                 binary_round_aux prec emax false (Z.pos mz) (d - 53) loc_Exact
                 = S754_finite false m (d - 53)
                 /\ SpecFloat.valid_binary prec emax
                      (S754_finite false m (d - 53)) = true
                 /\ 2 ^ 52 <= Z.pos m < 2 ^ 53
                 /\ Z.pos m = Z.pos p * 2 ^ (53 - d)).
    { intros mz Hmz.
      assert (Hmz53 : 2 ^ 52 <= Z.pos mz < 2 ^ 53).
      { rewrite Hmz.
        replace 52 with ((d - 1) + (53 - d)) at 1 by lia.
        replace 53 with (d + (53 - d)) at 4 by lia.
        rewrite !Z.pow_add_r by lia.
        assert (0 < 2 ^ (53 - d)) by (apply Z.pow_pos_nonneg; lia). nia. }
      destruct (binary_round_aux_normal false (Z.pos mz) (d - 53) loc_Exact
                  (Z.pos mz) 1 0) as (m & e & Hr & Hv & Hm & He & Herr);
        try lia.
      - apply locates_of_loc_exact. lia.
      - cbn [Zdigits2]. rewrite (digits2_pos_unique mz 53 Hmz53). lia.
      - rewrite Z.pow_0_r, !Z.mul_1_r in Herr.
        assert (He' : e = d - 53).
        { destruct (Z.eq_dec e (d - 53)) as [|Hne]; [assumption|].
          replace (e - (d - 53) - 0) with 1 in Herr by lia.
          change (2 ^ 1) with 2 in Herr. lia. }
        subst e. replace (d - 53 - (d - 53) - 0) with 0 in Herr by lia.
        rewrite Z.pow_0_r, Z.mul_1_r in Herr.
        exists m. repeat split; try assumption; try apply Hm. lia. }
    change (d - prec - 0) with (d - 53 - 0).
    destruct (d - 53 - 0) as [|q|q] eqn:Hs.
    - assert (Hd0 : d - 53 = 0) by lia. rewrite Hd0 in Hval |- *.
      apply Hval. replace (53 - d) with 0 by lia. cbn. lia.
    - lia.
    - apply Hval. rewrite iter_xO_value.
      replace (53 - d) with (Z.pos q) by lia. reflexivity. }
  destruct Hround as (m & Hr & Hv & Hm & Hmp).
  exists (SF2Prim (S754_finite false m (d - 53))), m, (53 - d).
  assert (Hp2sf : Prim2SF (SF2Prim (S754_finite false m (d - 53)))
                  = S754_finite false m (- (53 - d))).
  { rewrite Prim2SF_SF2Prim by exact Hv. f_equal. lia. }
  repeat split; try assumption; try apply Hm; try lia.
  unfold float_of_int. rewrite Hr.
  now rewrite (is_infinity_finite _ _ _ _ Hp2sf).
Qed.

(** ** The value of a binary64 number, as a real *)



Lemma pow2_pos (e : Z) : (0 < pow2 e)%R.
Proof. apply powerRZ_lt. lra. Qed.

Lemma pow2_add (a b : Z) : (pow2 (a + b) = pow2 a * pow2 b)%R.
Proof. apply powerRZ_add. lra. Qed.

Lemma pow2_IZR (n : Z) : 0 <= n -> pow2 n = IZR (2 ^ n).
Proof.
  intro Hn. unfold pow2.
  rewrite <- (Z2Nat.id n Hn). generalize (Z.to_nat n) as k. intro k.
  now rewrite <- pow_powerRZ, pow_IZR.
Qed.

Lemma pow2_ge_1 (n : Z) : 0 <= n -> (1 <= pow2 n)%R.
Proof.
  intro Hn. rewrite pow2_IZR by assumption. apply IZR_le.
  assert (0 < 2 ^ n) by (apply Z.pow_pos_nonneg; lia). lia.
Qed.

Lemma pow2_opp (e : Z) : (pow2 (- e) * pow2 e = 1)%R.
Proof. rewrite <- pow2_add. replace (- e + e) with 0 by lia. reflexivity. Qed.

Lemma roundoff_pos : (0 < roundoff)%R.
Proof. unfold roundoff. apply Rinv_0_lt_compat, IZR_lt. reflexivity. Qed.

Lemma roundoff_small : (roundoff * IZR (2 ^ 53) = 1)%R.
Proof. unfold roundoff. apply Rinv_l. apply not_0_IZR. discriminate. Qed.

(** The outcome of [binary_round_aux_normal], read as reals: the result
    is within a relative error of 2^-53 of the exact value. *)
Lemma round_relative (m' : positive) (e' ex n num den : Z) :
  0 < den -> 0 <= n ->
  2 ^ 52 <= Z.pos m' ->
  ex + n <= e' ->
  - (den * 2 ^ n)
  <= 2 * (Z.pos m' * 2 ^ (e' - ex - n) * (den * 2 ^ n) - num)
  <= den * 2 ^ n ->
  (IZR (Z.pos m') * pow2 e' * (1 - roundoff)
   <= IZR num / IZR den * pow2 ex
   <= IZR (Z.pos m') * pow2 e' * (1 + roundoff))%R.
Proof.
  intros Hden Hn Hm He [Hlo Hhi].
  apply IZR_le in Hlo, Hhi, Hm.
  rewrite opp_IZR in Hlo.
  rewrite !mult_IZR, minus_IZR, !mult_IZR in Hlo, Hhi.
  rewrite <- !pow2_IZR in Hlo, Hhi by lia.
  change (IZR (2 ^ 52)) with (IZR 4503599627370496) in Hm.
  assert (Hsplit : (pow2 e' = pow2 (e' - ex - n) * pow2 n * pow2 ex)%R)
    by (rewrite <- !pow2_add; f_equal; lia).
  replace (IZR (Z.pos m') * pow2 e')%R
    with (IZR (Z.pos m') * pow2 (e' - ex - n) * pow2 n * pow2 ex)%R
    by (rewrite Hsplit; ring).
  pose proof (pow2_ge_1 (e' - ex - n) ltac:(lia)) as Ht.
  pose proof (pow2_pos n) as Hpn.
  pose proof (pow2_pos ex) as Hpe.
  pose proof roundoff_pos as Heps. pose proof roundoff_small as Heps'.
  change (IZR (2 ^ 53)) with (IZR 9007199254740992) in Heps'.
  assert (HD : (0 < IZR den)%R) by now apply IZR_lt.
  set (A := (IZR (Z.pos m') * pow2 (e' - ex - n))%R) in *.
  set (D := IZR den) in *. set (N := IZR num) in *.
  set (Pn := pow2 n) in *. set (Pe := pow2 ex) in *.
  change (IZR 2) with 2%R in Hlo, Hhi.
  assert (HA : (4503599627370496 <= A)%R).
  { unfold A. apply Rle_trans with (IZR (Z.pos m') * 1)%R; [lra|].
    apply Rmult_le_compat_l; lra. }
  clearbody A D N Pn Pe. clear Hsplit Ht Hm He Hn Hden.
  assert (HAe : (1 <= 2 * (A * roundoff))%R).
  { assert (4503599627370496 * roundoff <= A * roundoff)%R
      by (apply Rmult_le_compat_r; lra).
    lra. }
  assert (Hq : (N / D * D = N)%R) by (field; lra).
  set (Q := (N / D)%R) in *. clearbody Q.
  assert (HAP : (0 <= A * Pn)%R) by (apply Rmult_le_pos; lra).
  assert (HAPe : (Pn <= 2 * (A * Pn * roundoff))%R).
  { replace (2 * (A * Pn * roundoff))%R with (Pn * (2 * (A * roundoff)))%R by ring.
    rewrite <- (Rmult_1_r Pn) at 1. apply Rmult_le_compat_l; lra. }
  assert (HQ : (A * Pn * (1 - roundoff) <= Q <= A * Pn * (1 + roundoff))%R).
  { split; apply Rmult_le_reg_r with D; try exact HD; nra. }
  replace (A * Pn * Pe * (1 - roundoff))%R with (A * Pn * (1 - roundoff) * Pe)%R by ring.
  replace (A * Pn * Pe * (1 + roundoff))%R with (A * Pn * (1 + roundoff) * Pe)%R by ring.
  split; apply Rmult_le_compat_r; lra.
Qed.

(** ** Division and multiplication of normal numbers *)


Lemma fvalue_pos (m : positive) (e : Z) : (0 < fvalue m e)%R.
Proof.
  unfold fvalue. apply Rmult_lt_0_compat; [|apply pow2_pos].
  apply IZR_lt. lia.
Qed.

Lemma new_location_locates (q den r : Z) :
  0 <= q -> 0 < den -> 0 <= r < den ->
  locates (shr_record_of_loc q (new_location den r)) (q * den + r) den.
Proof.
  intros Hq Hden Hr. unfold new_location.
  destruct (Z.even den) eqn:Heven.
  - unfold new_location_even.
    destruct (Z.eqb_spec r 0) as [->|Hr0].
    + unfold locates; cbn [shr_m shr_r shr_s shr_record_of_loc]; lia.
    + destruct (Z.compare_spec (2 * r) den); unfold locates; cbn [shr_m shr_r shr_s shr_record_of_loc]; lia.
  - assert (Hodd : exists k, den = 2 * k + 1).
    { apply Z.odd_spec. now rewrite <- Z.negb_even, Heven. }
    destruct Hodd as [k Hk].
    unfold new_location_odd.
    destruct (Z.eqb_spec r 0) as [->|Hr0].
    + unfold locates; cbn [shr_m shr_r shr_s shr_record_of_loc]; lia.
    + destruct (Z.compare_spec (2 * r + 1) den); unfold locates; cbn [shr_m shr_r shr_s shr_record_of_loc]; lia.
Qed.

Lemma SFdiv_core_normal (a b : positive) (ea eb : Z) :
  2 ^ 52 <= Z.pos a < 2 ^ 53 ->
  2 ^ 52 <= Z.pos b < 2 ^ 53 ->
  -52 <= ea <= 0 -> -52 <= eb <= 0 ->
  SFdiv_core_binary prec emax (Z.pos a) ea (Z.pos b) eb
  = (Z.pos a * 2 ^ 53 / Z.pos b, ea - eb - 53,
     new_location (Z.pos b) ((Z.pos a * 2 ^ 53) mod Z.pos b)).
Proof.
  intros Ha Hb Hea Heb. unfold SFdiv_core_binary. cbn [Zdigits2].
  rewrite (digits2_pos_unique a 53 Ha), (digits2_pos_unique b 53 Hb).
  replace (53 + ea - (53 + eb)) with (ea - eb) by lia.
  rewrite fexp_normal by (rewrite emin_value; unfold prec; lia).
  replace (Z.min (ea - eb - prec) (ea - eb)) with (ea - eb - 53)
    by (unfold prec; lia).
  replace (ea - eb - (ea - eb - 53)) with 53 by lia.
  rewrite Z.shiftl_mul_pow2 by lia.
  unfold Z.div, Z.modulo.
  now destruct (Z.div_eucl (Z.pos a * 2 ^ 53) (Z.pos b)).
Qed.

Lemma SFdiv_relative (a b : positive) (ea eb : Z) :
  2 ^ 52 <= Z.pos a < 2 ^ 53 ->
  2 ^ 52 <= Z.pos b < 2 ^ 53 ->
  -52 <= ea <= 0 -> -52 <= eb <= 0 ->
  exists (m' : positive) (e' : Z),
    SFdiv prec emax (S754_finite false a ea) (S754_finite false b eb)
    = S754_finite false m' e'
    /\ SpecFloat.valid_binary prec emax (S754_finite false m' e') = true
    /\ 2 ^ 52 <= Z.pos m' < 2 ^ 53
    /\ ea - eb - 53 <= e' <= ea - eb - 51
    /\ (fvalue m' e' * (1 - roundoff) <= fvalue a ea / fvalue b eb
        <= fvalue m' e' * (1 + roundoff))%R.
Proof.
  intros Ha Hb Hea Heb. unfold SFdiv.
  rewrite (SFdiv_core_normal a b ea eb Ha Hb Hea Heb). cbn [xorb].
  set (num := Z.pos a * 2 ^ 53).
  pose proof (Z.div_mod num (Z.pos b) ltac:(lia)) as Hdm.
  pose proof (Z.mod_pos_bound num (Z.pos b) ltac:(lia)) as Hmod.
  set (q := num / Z.pos b) in *. set (r := num mod Z.pos b) in *.
  assert (Hq : 2 ^ 52 <= q < 2 ^ 54).
  { unfold num in Hdm. change (2 ^ 54) with (2 * 2 ^ 53).
    change (2 ^ 53) with (2 * 2 ^ 52) in *. nia. }
  assert (Hdig : exists n, 0 <= n <= 1 /\ Zdigits2 q = 53 + n).
  { destruct q as [|pq|pq] eqn:Eq; try lia. cbn [Zdigits2].
    destruct (Z.ltb_spec (Z.pos pq) (2 ^ 53)).
    - exists 0. split; [lia|]. rewrite (digits2_pos_unique pq 53); lia.
    - exists 1. split; [lia|]. rewrite (digits2_pos_unique pq 54); lia. }
  destruct Hdig as (n & Hn & Hdig).
  assert (Hloc : locates (shr_record_of_loc q (new_location (Z.pos b) r))
                         num (Z.pos b)).
  { replace num with (q * Z.pos b + r) by lia.
    apply new_location_locates; lia. }
  destruct (binary_round_aux_normal false q (ea - eb - 53)
              (new_location (Z.pos b) r) num (Z.pos b) n)
    as (m' & e' & Hr & Hv & Hm & He & Herr); try lia; try assumption.
  exists m', e'. repeat split; try assumption; try apply Hm; try lia.
  - pose proof (round_relative m' e' (ea - eb - 53) n num (Z.pos b)
                  ltac:(lia) ltac:(lia) ltac:(lia) ltac:(lia) Herr) as [H1 _].
    unfold fvalue. replace (IZR (Z.pos a) * pow2 ea / (IZR (Z.pos b) * pow2 eb))%R
      with (IZR num / IZR (Z.pos b) * pow2 (ea - eb - 53))%R; [exact H1|].
    unfold num. rewrite mult_IZR, <- pow2_IZR by lia.
    replace (pow2 ea) with (pow2 53 * pow2 (ea - eb - 53) * pow2 eb)%R
      by (rewrite <- !pow2_add; f_equal; lia).
    field. split; [apply Rgt_not_eq, pow2_pos | apply not_0_IZR; lia].
  - pose proof (round_relative m' e' (ea - eb - 53) n num (Z.pos b)
                  ltac:(lia) ltac:(lia) ltac:(lia) ltac:(lia) Herr) as [_ H2].
    unfold fvalue. replace (IZR (Z.pos a) * pow2 ea / (IZR (Z.pos b) * pow2 eb))%R
      with (IZR num / IZR (Z.pos b) * pow2 (ea - eb - 53))%R; [exact H2|].
    unfold num. rewrite mult_IZR, <- pow2_IZR by lia.
    replace (pow2 ea) with (pow2 53 * pow2 (ea - eb - 53) * pow2 eb)%R
      by (rewrite <- !pow2_add; f_equal; lia).
    field. split; [apply Rgt_not_eq, pow2_pos | apply not_0_IZR; lia].
Qed.

Lemma SFmul_relative (c x : positive) (ec ex : Z) :
  2 ^ 52 <= Z.pos c < 2 ^ 53 ->
  2 ^ 52 <= Z.pos x < 2 ^ 53 ->
  -52 <= ec <= 0 -> -200 <= ex <= 200 ->
  exists (m' : positive) (e' : Z),
    SFmul prec emax (S754_finite false c ec) (S754_finite false x ex)
    = S754_finite false m' e'
    /\ 2 ^ 52 <= Z.pos m' < 2 ^ 53
    /\ (fvalue m' e' * (1 - roundoff) <= fvalue c ec * fvalue x ex
        <= fvalue m' e' * (1 + roundoff))%R.
Proof.
  intros Hc Hx Hec Hex. unfold SFmul. cbn [xorb].
  set (p := Z.pos (c * x)).
  assert (Hp : 2 ^ 104 <= p < 2 ^ 106).
  { unfold p. rewrite Pos2Z.inj_mul.
    change (2 ^ 104) with (2 ^ 52 * 2 ^ 52).
    change (2 ^ 106) with (2 ^ 53 * 2 ^ 53). nia. }
  assert (Hdig : exists n, 52 <= n <= 53 /\ Zdigits2 p = 53 + n).
  { unfold p in *. cbn [Zdigits2].
    destruct (Z.ltb_spec (Z.pos (c * x)) (2 ^ 105)).
    - exists 52. split; [lia|]. rewrite (digits2_pos_unique _ 105); lia.
    - exists 53. split; [lia|]. rewrite (digits2_pos_unique _ 106); lia. }
  destruct Hdig as (n & Hn & Hdig).
  destruct (binary_round_aux_normal false p (ec + ex) loc_Exact p 1 n)
    as (m' & e' & Hr & Hv & Hm & He & Herr); try lia; try assumption.
  { apply locates_of_loc_exact. lia. }
  exists m', e'. split; [exact Hr|]. split; [exact Hm|].
  pose proof (round_relative m' e' (ec + ex) n p 1
                ltac:(lia) ltac:(lia) ltac:(lia) ltac:(lia) Herr) as H.
  replace (fvalue c ec * fvalue x ex)%R with (IZR p / IZR 1 * pow2 (ec + ex))%R;
    [exact H|].
  unfold fvalue, p. rewrite Pos2Z.inj_mul, mult_IZR, pow2_add. field.
Qed.

(** ** From two rounded operations to the height *)

Lemma height_below (Y X rho Hr T qr wr : R) :
  (0 < Y)%R -> (0 < X)%R -> (0 <= Hr)%R -> (1 <= T)%R -> (0 <= qr)%R ->
  (Y * (1 - roundoff) <= Hr * X)%R ->
  (X * (1 - roundoff) <= rho)%R ->
  (rho * T = wr)%R ->
  (Hr * wr <= (qr + 1) * T - 1)%R ->
  ((qr + 1) * T <= 4503599627370495)%R ->
  (Y < qr + 1)%R.
Proof.
  intros HY HX HHr HT Hqr H1 H2 H3 H4 H5.
  pose proof roundoff_pos as He. pose proof roundoff_small as He'.
  change (IZR (2 ^ 53)) with 9007199254740992%R in He'.
  destruct (Rlt_or_le Y (qr + 1)) as [|Hge]; [assumption|exfalso].
  assert (He1 : (0 < 1 - roundoff)%R) by lra.
  assert (S1 : (Y * (1 - roundoff) * (1 - roundoff) <= Hr * rho)%R).
  { apply Rle_trans with (Hr * X * (1 - roundoff))%R.
    - apply Rmult_le_compat_r; lra.
    - rewrite Rmult_assoc. apply Rmult_le_compat_l; lra. }
  assert (S2 : (Y * (1 - roundoff) * (1 - roundoff) * T <= (qr + 1) * T - 1)%R).
  { apply Rle_trans with (Hr * rho * T)%R.
    - apply Rmult_le_compat_r; lra.
    - rewrite Rmult_assoc, H3. exact H4. }
  assert (S3 : ((qr + 1) * ((1 - roundoff) * (1 - roundoff) * T)
                <= Y * ((1 - roundoff) * (1 - roundoff) * T))%R).
  { apply Rmult_le_compat_r; [|exact Hge].
    apply Rmult_le_pos; [apply Rmult_le_pos|]; lra. }
  assert (S4 : ((qr + 1) * T * ((1 - roundoff) * (1 - roundoff))
                <= (qr + 1) * T - 1)%R).
  { replace ((qr + 1) * T * ((1 - roundoff) * (1 - roundoff)))%R
      with ((qr + 1) * ((1 - roundoff) * (1 - roundoff) * T))%R by ring.
    replace (Y * ((1 - roundoff) * (1 - roundoff) * T))%R
      with (Y * (1 - roundoff) * (1 - roundoff) * T)%R in S3 by ring.
    lra. }
  assert (HZ : (1 <= (qr + 1) * T)%R) by nra.
  set (Z := ((qr + 1) * T)%R) in *. clearbody Z.
  assert (S5 : (1 <= Z * (2 * roundoff))%R).
  { assert (0 <= Z * (roundoff * roundoff))%R.
    { apply Rmult_le_pos; [lra | nra]. }
    replace (Z * ((1 - roundoff) * (1 - roundoff)))%R
      with (Z - Z * (2 * roundoff) + Z * (roundoff * roundoff))%R in S4 by ring.
    lra. }
  assert (S6 : (Z * (2 * roundoff) <= 4503599627370495 * (2 * roundoff))%R).
  { apply Rmult_le_compat_r; lra. }
  lra.
Qed.

Lemma height_above (Y X rho Hr T qr wr : R) :
  (0 < Y)%R -> (0 < X)%R -> (0 <= Hr)%R -> (1 <= T)%R ->
  (Hr * X <= Y * (1 + roundoff))%R ->
  (rho <= X * (1 + roundoff))%R ->
  (rho * T = wr)%R ->
  (qr * T <= Hr * wr)%R ->
  (qr <= 4503599627370493)%R ->
  (qr - 1 <= Y)%R.
Proof.
  intros HY HX HHr HT H1 H2 H3 H4 H5.
  pose proof roundoff_pos as He. pose proof roundoff_small as He'.
  change (IZR (2 ^ 53)) with 9007199254740992%R in He'.
  destruct (Rle_or_lt (qr - 1) Y) as [|Hlt]; [assumption|exfalso].
  assert (S1 : (Hr * rho <= Y * (1 + roundoff) * (1 + roundoff))%R).
  { apply Rle_trans with (Hr * X * (1 + roundoff))%R.
    - rewrite Rmult_assoc. apply Rmult_le_compat_l; lra.
    - apply Rmult_le_compat_r; lra. }
  assert (S2 : (qr * T <= Y * (1 + roundoff) * (1 + roundoff) * T)%R).
  { apply Rle_trans with (Hr * rho * T)%R.
    - rewrite Rmult_assoc, H3. exact H4.
    - apply Rmult_le_compat_r; lra. }
  assert (S3 : (qr <= Y * (1 + roundoff) * (1 + roundoff))%R).
  { apply Rmult_le_reg_r with T; lra. }
  assert (S4 : (Y * ((1 + roundoff) * (1 + roundoff))
                <= (qr - 1) * ((1 + roundoff) * (1 + roundoff)))%R).
  { apply Rmult_le_compat_r; [nra | lra]. }
  assert (S6 : ((qr - 1) * (2 * roundoff) <= 4503599627370492 * (2 * roundoff))%R).
  { apply Rmult_le_compat_r; lra. }
  assert (S7 : ((qr - 1) * roundoff * roundoff <= 1 * roundoff)%R).
  { apply Rmult_le_compat_r; [lra|].
    apply Rle_trans with (9007199254740992 * roundoff)%R; [|lra].
    apply Rmult_le_compat_r; lra. }
  replace ((qr - 1) * ((1 + roundoff) * (1 + roundoff)))%R
    with ((qr - 1) + (qr - 1) * (2 * roundoff) + (qr - 1) * roundoff * roundoff)%R
    in S4 by ring.
  lra.
Qed.

Lemma fvalue_of_int (m : positive) (k n : Z) :
  0 <= k -> Z.pos m = n * 2 ^ k -> fvalue m (- k) = IZR n.
Proof.
  intros Hk Hm. unfold fvalue. rewrite Hm, mult_IZR, <- pow2_IZR by lia.
  rewrite Rmult_assoc, (Rmult_comm (pow2 k)), pow2_opp. ring.
Qed.

Lemma trunc_fvalue (m : positive) (e : Z) :
  let h := if 0 <=? e then Z.pos m * 2 ^ e else Z.pos m / 2 ^ (- e) in
  (IZR h <= fvalue m e < IZR h + 1)%R.
Proof.
  unfold fvalue. destruct (Z.leb_spec 0 e) as [He|He]; cbv zeta.
  - rewrite mult_IZR, <- pow2_IZR by lia. lra.
  - assert (Hp : 0 < 2 ^ (- e)) by (apply Z.pow_pos_nonneg; lia).
    pose proof (Z.div_mod (Z.pos m) (2 ^ (- e)) ltac:(lia)) as Hdm.
    pose proof (Z.mod_pos_bound (Z.pos m) (2 ^ (- e)) Hp) as Hmod.
    set (h := Z.pos m / 2 ^ (- e)) in *.
    assert (Hlo : h * 2 ^ (- e) <= Z.pos m) by lia.
    assert (Hhi : Z.pos m < (h + 1) * 2 ^ (- e)) by lia.
    apply IZR_le in Hlo. apply IZR_lt in Hhi.
    rewrite mult_IZR, <- pow2_IZR in Hlo, Hhi by lia.
    rewrite plus_IZR in Hhi.
    pose proof (pow2_pos e) as Hpe. pose proof (pow2_opp e) as Hinv.
    split.
    + apply Rmult_le_reg_r with (pow2 (- e)); [apply pow2_pos|].
      rewrite Rmult_assoc, (Rmult_comm (pow2 e)), Hinv. lra.
    + apply Rmult_lt_reg_r with (pow2 (- e)); [apply pow2_pos|].
      rewrite Rmult_assoc, (Rmult_comm (pow2 e)), Hinv. lra.
Qed.

(** ** The height computed by [_resize_portrait], in general *)

Lemma float_of_int_0 : float_of_int 0 = inr 0%float.
Proof. vm_compute. reflexivity. Qed.

(** For a positive image width and target width, and sizes for which
    (H + 1) * w + W stays below 2^52, the two rounded operations and the
    truncation give the exact quotient rounded down, or one less. *)
Lemma portrait_height_close (W H w : Z) :
  0 < W -> 0 < w -> 0 <= H -> (H + 1) * w + W < 2 ^ 52 ->
  exists h,
    portrait_height W H w = inr h
    /\ H * w / W - 1 <= h <= H * w / W.
Proof.
  intros HW Hw HH Hbound.
  assert (HW53 : 0 < W < 2 ^ 53) by (change (2 ^ 53) with (2 * 2 ^ 52); nia).
  assert (Hw53 : 0 < w < 2 ^ 53) by (change (2 ^ 53) with (2 * 2 ^ 52); nia).
  destruct (float_of_int_exact W HW53)
    as (fW & b & kW & HfW & HpW & Hb & HkW & HbW).
  destruct (float_of_int_exact w Hw53)
    as (fw & a & kw & Hfw & Hpw & Ha & Hkw & Haw).
  unfold portrait_height. rewrite HfW, Hfw.
  unfold truediv. rewrite (eqb_zero_finite fW _ _ _ HpW).
  destruct (SFdiv_relative a b (- kw) (- kW) Ha Hb ltac:(lia) ltac:(lia))
    as (mx & ex & Hdiv & Hvx & Hmx & Hex & Hrx).
  assert (Hpx : Prim2SF (fw / fW) = S754_finite false mx ex).
  { rewrite div_spec, Hpw, HpW. exact Hdiv. }
  destruct (Z.eq_dec H 0) as [->|HH0].
  { (* no rows *)
    rewrite float_of_int_0. unfold int_of_float.
    rewrite mul_spec, Hpx, prim_zero. cbn.
    exists 0. split; [reflexivity|].
    lia. }
  assert (HH53 : 0 < H < 2 ^ 53) by (change (2 ^ 53) with (2 * 2 ^ 52); nia).
  destruct (float_of_int_exact H HH53)
    as (fH & c & kH & HfH & HpH & Hc & HkH & HcH).
  rewrite HfH. unfold int_of_float.
  destruct (SFmul_relative c mx (- kH) ex Hc Hmx ltac:(lia) ltac:(lia))
    as (my & ey & Hmul & Hmy & Hry).
  rewrite mul_spec, HpH, Hpx. unfold SF64mul. rewrite Hmul.
  eexists. split; [reflexivity|].
  pose proof (trunc_fvalue my ey) as Htr. cbv zeta in Htr.
  set (h := if 0 <=? ey then Z.pos my * 2 ^ ey else Z.pos my / 2 ^ (- ey)) in *.
  clearbody h.
  rewrite (fvalue_of_int a kw w) in Hrx by lia.
  rewrite (fvalue_of_int b kW W) in Hrx by lia.
  rewrite (fvalue_of_int c kH H) in Hry by lia.
  pose proof (fvalue_pos mx ex) as HX. pose proof (fvalue_pos my ey) as HY.
  set (X := fvalue mx ex) in *. set (Y := fvalue my ey) in *. clearbody X Y.
  set (q := H * w / W).
  pose proof (Z.div_mod (H * w) W ltac:(lia)) as Hdm.
  pose proof (Z.mod_pos_bound (H * w) W HW) as Hmod.
  fold q in Hdm.
  assert (Hq0 : 0 <= q) by (apply Z.div_pos; nia).
  assert (Hq1 : q * W <= H * w) by lia.
  assert (Hq2 : H * w <= (q + 1) * W - 1) by lia.
  assert (Hq3 : (q + 1) * W <= 4503599627370495).
  { change (2 ^ 52) with 4503599627370496 in Hbound. lia. }
  assert (Hq4 : q <= 4503599627370493).
  { change (2 ^ 52) with 4503599627370496 in Hbound.
    assert (q * 1 <= q * W) by (apply Z.mul_le_mono_nonneg_l; lia). lia. }
  apply IZR_le in Hq0, Hq1, Hq2, Hq3, Hq4.
  rewrite !mult_IZR in Hq1.
  rewrite minus_IZR, !mult_IZR, plus_IZR in Hq2.
  rewrite mult_IZR, plus_IZR in Hq3.
  assert (HT : (1 <= IZR W)%R) by (apply IZR_le; lia).
  assert (HHr : (0 <= IZR H)%R) by (apply IZR_le; lia).
  assert (Hrho : (IZR w / IZR W * IZR W = IZR w)%R) by (field; lra).
  destruct Hrx as [Hrx1 Hrx2]. destruct Hry as [Hry1 Hry2].
  assert (Hup : (Y < IZR q + 1)%R).
  { apply (height_below Y X (IZR w / IZR W) (IZR H) (IZR W) (IZR q) (IZR w));
      assumption. }
  assert (Hdown : (IZR q - 1 <= Y)%R).
  { apply (height_above Y X (IZR w / IZR W) (IZR H) (IZR W) (IZR q) (IZR w));
      assumption. }
  split.
  - assert (Hlow : (IZR (q - 2) < IZR h)%R); [|apply lt_IZR in Hlow; lia].
    rewrite minus_IZR. change (IZR 2) with 2%R. lra.
  - assert (Hhigh : (IZR h < IZR (q + 1))%R); [|apply lt_IZR in Hhigh; lia].
    rewrite plus_IZR. lra.
Qed.

(** ** [_resize_portrait] *)

Section Resize.

Context {ext : Externals}.

(** The width the resize is done at. *)
Lemma _resize_portrait_eq (image : Image) (o : option Z) :
  _resize_portrait image o =
  let w := match o with
           | Some w => if w =? 0 then 100 else w
           | None => 100
           end in
  match portrait_height (fst (Image_size image)) (snd (Image_size image)) w with
  | inl e => ([], Raise e)
  | inr h => call (EvImageResize image (w, h)) (Image_resize image (w, h))
  end.
Proof.
  unfold _resize_portrait, portrait_height, truthy_int.
  destruct o as [w|]; [destruct (w =? 0)|]; cbn [negb]; cbv zeta;
    repeat (match goal with
            | |- context [lift ?x] => destruct x
            end; cbn; try reflexivity);
    destruct (Image_resize image _); reflexivity.
Qed.

Lemma _resize_portrait_filter (P : event -> bool) (image : Image)
      (o : option Z) :
  (forall img size, P (EvImageResize img size) = false) ->
  filter P (fst (_resize_portrait image o)) = [].
Proof.
  intro HP. rewrite _resize_portrait_eq. cbv zeta.
  destruct (portrait_height _ _ _) as [e|h]; [reflexivity|].
  unfold call. destruct (Image_resize image _); cbn; now rewrite HP.
Qed.

Lemma _resize_portrait_finishes (image : Image) (o : option Z)
      (t : list event) :
  _resize_portrait image o <> (t, Running).
Proof.
  rewrite _resize_portrait_eq. cbv zeta.
  destruct (portrait_height _ _ _) as [e|h]; [discriminate|].
  unfold call. destruct (Image_resize image _); discriminate.
Qed.

(** C9: a width that is [None] or 0 is replaced by 100.  The call
    behaves as the call with width 100 and never asks the image library
    for another width; and for an image of positive width, with
    (H + 1) * 100 + W below 2^52, the resize is made: [Image.resize] is
    called once, with width 100 and a height that is
    floor(H * 100 / W) or one less, and what it returns is returned. *)
Theorem resize_unset_width_is_100 (image : Image) (o : option Z) :
  truthy_int o = false ->
  _resize_portrait image o = _resize_portrait image (Some 100)
  /\ resized_to_width 100 (fst (_resize_portrait image o))
  /\ (0 < fst (Image_size image) ->
      0 <= snd (Image_size image) ->
      (snd (Image_size image) + 1) * 100 + fst (Image_size image) < 2 ^ 52 ->
      exists h,
        snd (Image_size image) * 100 / fst (Image_size image) - 1 <= h
          <= snd (Image_size image) * 100 / fst (Image_size image)
        /\ _resize_portrait image o
           = call (EvImageResize image (100, h))
                  (Image_resize image (100, h))).
Proof.
  intro Hfalsy.
  assert (Heq : _resize_portrait image o = _resize_portrait image (Some 100)).
  { destruct o as [w|]; [|reflexivity].
    cbn in Hfalsy. apply negb_false_iff, Z.eqb_eq in Hfalsy.
    subst w. reflexivity. }
  split; [exact Heq|]. split.
  - rewrite Heq, _resize_portrait_eq. cbn [Z.eqb]. cbv zeta.
    unfold resized_to_width.
    destruct (portrait_height _ _ _) as [e|h]; [constructor|].
    unfold call. destruct (Image_resize image _); repeat constructor.
  - intros HW HH Hbound.
    destruct (portrait_height_close _ _ 100 HW ltac:(lia) HH Hbound)
      as (h & Hh & Hclose).
    exists h. split; [exact Hclose|].
    rewrite Heq, _resize_portrait_eq. cbn [Z.eqb]. cbv zeta.
    now rewrite Hh.
Qed.

End Resize.

(** *** The height against the exact quotient *)

Section ResizeHeight.

Context {ext : Externals}.


End ResizeHeight.

(** ** Static conversion: where the art goes *)

Section StaticSink.

Context {ext : Externals}.

Variable fuel : nat.
Variable a : Arguments.
Hypothesis Hstatic : gif a = false.

(** C5, as the code has it: a static conversion that completes sends
    the generated art to one sink.  With a non-empty output path the
    file is opened for writing as UTF-8, the art is written to it and
    nothing goes to the printer; with no output path, or an empty one,
    the art goes to the printer of the mode and no file is touched. *)
Theorem static_art_one_sink (t : list event) :
  main_wrapped fuel (Parsed a) = (t, Ret tt) ->
  exists (resized : Image) (art : string),
    In (generator_call a resized) t
    /\ Generator_generate_art resized (palette (palettes (mode a)))
         (resetter (palettes (mode a))) (threshold a) = inr art
    /\ match out a with
       | Some (String c rest) =>
           filter is_art_output t
           = [EvFileOpen (String c rest) "w" "utf-8";
              EvFileWrite (String c rest) art]
       | _ =>
           filter is_art_output t
           = [EvModePrinter (p_printer (palettes (mode a))) art]
       end.
Proof.
  intro Hrun.
  destruct (Image_open (file_path a)) as [e|image] eqn:Hopen.
  { rewrite (run_open_fails fuel a e Hopen) in Hrun. discriminate Hrun. }
  destruct (_resize_portrait image (width a)) as [tr [resized|e|]] eqn:Hres.
  2: { rewrite (run_static_resize_fails fuel a image tr e Hopen Hstatic Hres)
         in Hrun. discriminate Hrun. }
  2: { now apply _resize_portrait_finishes in Hres. }
  assert (Htr : filter is_art_output tr = []).
  { replace tr with (fst (_resize_portrait image (width a)))
      by now rewrite Hres.
    now apply _resize_portrait_filter. }
  destruct (Generator_generate_art resized (palette (palettes (mode a)))
              (resetter (palettes (mode a))) (threshold a))
    as [e|art] eqn:Hart.
  { rewrite (run_static_generate_fails fuel a image resized tr e
               Hopen Hstatic Hres Hart) in Hrun. discriminate Hrun. }
  exists resized, art.
  assert (Hin : forall rest,
             In (generator_call a resized)
                (header a ++ tr ++ generator_call a resized :: rest)).
  { intro rest. apply in_or_app. right. apply in_or_app. right. now left. }
  destruct (out a) as [[|c rest]|] eqn:Hout.
  - rewrite (run_static_print fuel a image resized tr art
               Hopen Hstatic Hres Hart) in Hrun by now rewrite Hout.
    injection Hrun as <-. split; [apply Hin | split; [exact Hart|]].
    rewrite !filter_app, header_filter, Htr by reflexivity. reflexivity.
  - destruct (open_for_writing (String c rest)) as [e|] eqn:Hfile.
    + rewrite (run_static_save_fails fuel a image resized tr art
                 (String c rest) e Hopen Hstatic Hres Hart Hout) in Hrun
        by (assumption || discriminate).
      discriminate Hrun.
    + rewrite (run_static_save fuel a image resized tr art
                 (String c rest) Hopen Hstatic Hres Hart Hout) in Hrun
        by (assumption || discriminate).
      injection Hrun as <-. split; [apply Hin | split; [exact Hart|]].
      rewrite !filter_app, header_filter, Htr by reflexivity. reflexivity.
  - rewrite (run_static_print fuel a image resized tr art
               Hopen Hstatic Hres Hart) in Hrun by now rewrite Hout.
    injection Hrun as <-. split; [apply Hin | split; [exact Hart|]].
    rewrite !filter_app, header_filter, Htr by reflexivity. reflexivity.
Qed.

End StaticSink.

(** ** The layout of the art *)

Module GeneratorFacts.

Import Generator.

Lemma corners_from_length (fuel : nat) (start extent step : Z) :
  0 < step ->
  extent - start <= Z.of_nat fuel * step ->
  Z.of_nat (List.length (corners_from fuel start extent step))
  = Z.max 0 (ceil_div (extent - start) step).
Proof.
  intro Hstep. unfold ceil_div.
  revert start. induction fuel as [|fuel IH]; intros start Hfuel.
  - cbn [corners_from List.length].
    assert ((extent - start + step - 1) / step <= 0); [|lia].
    apply Z.lt_succ_r, Z.div_lt_upper_bound; lia.
  - cbn [corners_from]. destruct (Z.ltb_spec start extent) as [Hlt|Hge].
    + cbn [List.length]. rewrite Nat2Z.inj_succ, IH by lia.
      replace (extent - start + step - 1)
        with (extent - (start + step) + step - 1 + 1 * step) by lia.
      rewrite Z.div_add by lia.
      assert (0 <= (extent - (start + step) + step - 1) / step); [|lia].
      apply Z.div_pos; lia.
    + cbn [List.length].
      assert ((extent - start + step - 1) / step <= 0); [|lia].
      apply Z.lt_succ_r, Z.div_lt_upper_bound; lia.
Qed.

Lemma corners_length (extent step : Z) :
  0 < step ->
  Z.of_nat (List.length (corners extent step)) = Z.max 0 (ceil_div extent step).
Proof.
  intro Hstep. unfold corners.
  rewrite corners_from_length, Z.sub_0_r by nia. reflexivity.
Qed.

(** [ceil_div] is the ceiling of the quotient. *)
Lemma ceil_div_spec (a b : Z) :
  0 < b -> b * (ceil_div a b - 1) < a <= b * ceil_div a b.
Proof.
  intro Hb. unfold ceil_div.
  pose proof (Z.div_mod (a + b - 1) b ltac:(lia)) as Hdm.
  pose proof (Z.mod_pos_bound (a + b - 1) b Hb) as Hm.
  lia.
Qed.

(** C8: for an image of width W and height H the art has ceil(H/4)
    lines and each line has ceil(W/2) glyphs; cells that reach past the
    right or bottom edge are kept. *)
Theorem art_dimensions (img : Image) (p : Palette) (threshold : Z) :
  0 <= width img -> 0 <= height img ->
  Z.of_nat (List.length (assemble img p threshold)) = ceil_div (height img) 4
  /\ Forall (fun line => Z.of_nat (List.length line) = ceil_div (width img) 2)
            (assemble img p threshold).
Proof.
  intros HW HH. unfold assemble. split.
  - rewrite length_map, corners_length by lia.
    pose proof (ceil_div_spec (height img) 4 ltac:(lia)). lia.
  - apply Forall_map, Forall_forall. intros y0 _.
    rewrite length_map, corners_length by lia.
    pose proof (ceil_div_spec (width img) 2 ltac:(lia)). lia.
Qed.

End GeneratorFacts.

(** * Concrete runs *)

Module Runs.

Import Demo.

(** [-gf -w 0]: the animation is generated and played. *)
Lemma gif_width_zero_is_played :
  run (Parsed gif_width0)
  = ([EvSetLevel ERROR; EvLog INFO "Generating..."; EvImageOpen "anim.gif";
      EvGenerator (ext := world) (4, 4) None "" None;
      EvGenerateGifFrames; EvLog SUCCESS "Generated!";
      EvModePrinter builtin_print "f1"; EvSleep (ext := world) 100;
      EvModePrinter builtin_print "f2"; EvSleep (ext := world) 100],
     Ret tt)
  /\ existsb is_generate_gif_frames (fst (run (Parsed gif_width0))) = true
  /\ existsb is_art_output (fst (run (Parsed gif_width0))) = true
  /\ snd (run (Parsed gif_width0)) <> Raise GifUnsupportedResizeError.
Proof. repeat split; try reflexivity. discriminate. Qed.

(** [-gf -w 50 -o out.txt]: the error raised is the resize one. *)
Lemma gif_width_and_out_raises_resize :
  run (Parsed gif_width_out)
  = ([EvSetLevel ERROR; EvLog INFO "Generating..."; EvImageOpen "anim.gif";
      EvGenerator (ext := world) (4, 4) None "" None],
     Raise GifUnsupportedResizeError)
  /\ snd (run (Parsed gif_width_out)) <> Raise GifUnsupportedSaveError.
Proof. split; [reflexivity | discriminate]. Qed.

(** [-gf -w 0 -o out.txt]: the save error is raised and reported. *)
Lemma gif_width_zero_and_out_reports_save :
  snd (run (Parsed gif_width0_out)) = Raise GifUnsupportedSaveError
  /\ main (ext := world) 1 (Parsed gif_width0_out)
     = ([EvSetLevel ERROR; EvLog INFO "Generating..."; EvImageOpen "anim.gif";
         EvGenerator (ext := world) (4, 4) None "" None;
         EvLog ERROR "Error! Gif arts saving is not supported."],
        Ret tt).
Proof. split; reflexivity. Qed.

(** Argument parsing leaves through [sys.exit(2)]: the exception goes
    through the handler, and nothing is logged. *)
Lemma system_exit_passes_the_handler :
  main (ext := world) 1 (ParseExit 2) = ([], Raise (SystemExit 2)).
Proof. reflexivity. Qed.

(** [-o ""] without [-gf]: the art is printed, no file is opened. *)
Lemma empty_out_is_printed :
  run (Parsed static_empty_out)
  = ([EvSetLevel ERROR; EvLog INFO "Generating..."; EvImageOpen "photo.jpg";
      EvImageResize (ext := world) (640, 480) (100, 75);
      EvGenerator (ext := world) (100, 75) None "" None;
      EvGenerateArt; EvLog SUCCESS "Generated!";
      EvModePrinter builtin_print "art"],
     Ret tt)
  /\ out static_empty_out = Some ""
  /\ existsb is_file_event (fst (run (Parsed static_empty_out))) = false.
Proof. vm_compute. repeat split. Qed.


Lemma gif_width_rejected_witness :
  existsb is_generate_gif_frames (fst (run (Parsed gif_width))) = false
  /\ existsb is_art_output (fst (run (Parsed gif_width))) = false
  /\ (forall image, Image_open (file_path gif_width) = inr image ->
      snd (run (Parsed gif_width)) = Raise GifUnsupportedResizeError).
Proof.
  apply (gif_width_rejected (ext := world) 1 gif_width eq_refl 50 eq_refl).
  discriminate.
Defined.

Lemma gif_out_rejected_witness :
  existsb is_generate_gif_frames (fst (run (Parsed gif_out))) = false
  /\ existsb is_file_event (fst (run (Parsed gif_out))) = false
  /\ (truthy_int (width gif_out) = false ->
      forall image, Image_open (file_path gif_out) = inr image ->
      snd (run (Parsed gif_out)) = Raise GifUnsupportedSaveError).
Proof.
  apply (gif_out_rejected (ext := world) 1 gif_out eq_refl "out.txt" eq_refl).
  discriminate.
Defined.

Lemma gif_width_checked_before_out_witness :
  snd (run (Parsed gif_width_out)) = Raise GifUnsupportedResizeError
  /\ main (ext := world) 1 (Parsed gif_width_out)
     = (header gif_width_out
        ++ [generator_call gif_width_out (4, 4);
            EvLog ERROR "Error! Gif resizing is not supported."],
        Ret tt).
Proof.
  apply (gif_width_checked_before_out (ext := world) 1 gif_width_out eq_refl
           50 "out.txt" (4, 4) eq_refl); [discriminate | reflexivity..].
Defined.

Lemma gif_never_resizes_witness :
  existsb is_resize (fst (run (Parsed gif_plain))) = false
  /\ generator_input_is
       (fun image => Image_open (file_path gif_plain) = inr image)
       (fst (run (Parsed gif_plain))).
Proof. exact (gif_never_resizes (ext := world) 1 gif_plain eq_refl). Defined.

Lemma exception_handler_cases_witness :
  main (ext := world) 1 (Parsed gif_width)
  = ([EvSetLevel ERROR; EvLog INFO "Generating..."; EvImageOpen "anim.gif";
      EvGenerator (ext := world) (4, 4) None "" None]
     ++ [EvLog ERROR "Error! Gif resizing is not supported."],
     Ret tt).
Proof.
  exact (exception_handler_cases (ext := world) _ (main_wrapped 1)
           (Parsed gif_width) _ GifUnsupportedResizeError eq_refl).
Defined.

Lemma static_art_one_sink_witness :
  exists (resized : Image) (art : string),
    In (generator_call static_saved resized)
       (fst (run (Parsed static_saved)))
    /\ Generator_generate_art resized None "" None = inr art
    /\ filter is_art_output (fst (run (Parsed static_saved)))
       = [EvFileOpen "out.txt" "w" "utf-8"; EvFileWrite "out.txt" art].
Proof.
  apply (static_art_one_sink (ext := world) 1 static_saved eq_refl).
  vm_compute. reflexivity.
Defined.


Lemma resize_unset_width_is_100_witness :
  exists h,
    480 * 100 / 640 - 1 <= h <= 480 * 100 / 640
    /\ _resize_portrait (ext := world) (640, 480) (Some 0)
       = call (EvImageResize (ext := world) (640, 480) (100, h))
              (inr (100, h)).
Proof.
  apply (resize_unset_width_is_100 (ext := world) (640, 480) (Some 0));
    cbn; (reflexivity || lia).
Defined.

(** Past the range of the two statements the height can be further
    off: with W = 1, w = 3 and H = 2^60 + 1 the exact product is
    3 * 2^60 + 3 and the height computed is 3 * 2^60. *)
Lemma resize_past_2_52_is_further_off :
  portrait_height 1 (2 ^ 60 + 1) 3 = inr (3 * 2 ^ 60)
  /\ (2 ^ 60 + 1) * 3 / 1 = 3 * 2 ^ 60 + 3.
Proof. split; vm_compute; reflexivity. Qed.

(** The same call on a 640 by 480 image does reach the image library,
    with size (100, 75). *)
Lemma resize_default_on_photo :
  _resize_portrait (ext := world) (640, 480) None
  = ([EvImageResize (ext := world) (640, 480) (100, 75)], Ret (100, 75)).
Proof. vm_compute. reflexivity. Qed.

(** The 5 by 7 image gives two lines of three glyphs; the cells at the
    right and bottom edges have only the dots inside the image set. *)
Lemma art_of_grey_5x7 :
  Generator.assemble grey_5x7 Generator.NoStyle 100
  = [[("", 10495, ""); ("", 10495, ""); ("", 10255, "")];
     [("", 10359, ""); ("", 10359, ""); ("", 10247, "")]].
Proof. vm_compute. reflexivity. Qed.

Lemma art_dimensions_witness :
  Z.of_nat (List.length (Generator.assemble grey_5x7 Generator.NoStyle 100))
  = Generator.ceil_div 7 4
  /\ Forall (fun line => Z.of_nat (List.length line) = Generator.ceil_div 5 2)
            (Generator.assemble grey_5x7 Generator.NoStyle 100).
Proof.
  apply (GeneratorFacts.art_dimensions grey_5x7 Generator.NoStyle 100);
    cbn; lia.
Defined.

End Runs.

(** * Further properties of [main.py] *)

(** ** Every run follows one of the paths *)

Section PathFacts.

Context {ext : Externals}.

Lemma main_wrapped_path (fuel : nat) (a : Arguments) :
  path fuel a (main_wrapped fuel (Parsed a)).
Proof.
  destruct (Image_open (file_path a)) as [e|image] eqn:Hopen.
  { rewrite (run_open_fails fuel a e Hopen). now constructor. }
  destruct (gif a) eqn:Hgif.
  - destruct (truthy_int (width a)) eqn:Hw.
    { rewrite (run_gif_width fuel a image Hopen Hgif Hw). now constructor. }
    destruct (truthy_str (out a)) eqn:Hout.
    { rewrite (run_gif_out fuel a image Hopen Hgif Hw Hout). now constructor. }
    destruct (generate_gif_frames_of a image) as [e|[frames d]] eqn:Hframes.
    + rewrite (run_gif_generate_fails fuel a image e Hopen Hgif Hw Hout Hframes).
      now constructor.
    + rewrite (run_gif_play fuel a image frames d Hopen Hgif Hw Hout Hframes).
      now constructor.
  - destruct (_resize_portrait image (width a)) as [tr [resized|e|]] eqn:Hres.
    2: { rewrite (run_static_resize_fails fuel a image tr e Hopen Hgif Hres).
         eapply path_static_resize_fails; eauto. }
    2: { now apply _resize_portrait_finishes in Hres. }
    destruct (generate_art_of a resized) as [e|art] eqn:Hart.
    { rewrite (run_static_generate_fails fuel a image resized tr e
                 Hopen Hgif Hres Hart).
      eapply path_static_generate_fails; eauto. }
    destruct (out a) as [[|c rest]|] eqn:Hout.
    + rewrite (run_static_print fuel a image resized tr art
                 Hopen Hgif Hres Hart) by now rewrite Hout.
      eapply path_static_print; eauto. now rewrite Hout.
    + destruct (open_for_writing (String c rest)) as [e|] eqn:Hfile.
      * rewrite (run_static_save_fails fuel a image resized tr art
                   (String c rest) e Hopen Hgif Hres Hart Hout)
          by (assumption || discriminate).
        eapply path_static_save_fails; eauto; discriminate.
      * rewrite (run_static_save fuel a image resized tr art
                   (String c rest) Hopen Hgif Hres Hart Hout)
          by (assumption || discriminate).
        eapply path_static_save; eauto; discriminate.
    + rewrite (run_static_print fuel a image resized tr art
                 Hopen Hgif Hres Hart) by now rewrite Hout.
      eapply path_static_print; eauto. now rewrite Hout.
Qed.

(** What [_resize_portrait] leaves in the trace. *)
Lemma _resize_portrait_events (P : event -> bool) (image : Image)
      (o : option Z) :
  (forall img size, P (EvImageResize img size) = false) ->
  existsb P (fst (_resize_portrait image o)) = false.
Proof.
  intro HP. rewrite _resize_portrait_eq. cbv zeta.
  destruct (portrait_height _ _ _) as [e|h]; [reflexivity|].
  unfold call. destruct (Image_resize image _); cbn; now rewrite HP.
Qed.

Lemma _resize_portrait_returns (image resized : Image) (o : option Z)
      (tr : list event) :
  _resize_portrait image o = (tr, Ret resized) ->
  exists h,
    tr = [EvImageResize image (target_width o, h)]
    /\ Image_resize image (target_width o, h) = inr resized.
Proof.
  rewrite _resize_portrait_eq. cbv zeta. fold (target_width o).
  destruct (portrait_height _ _ _) as [e|h]; [discriminate|].
  unfold call. destruct (Image_resize image _) as [e|r] eqn:Hr;
    [discriminate|].
  intro H. injection H as <- <-. now exists h.
Qed.

Lemma resize_trace_of (image : Image) (o : option Z) (tr : list event)
      (r : result Image) :
  _resize_portrait image o = (tr, r) -> tr = fst (_resize_portrait image o).
Proof. intro H. now rewrite H. Qed.

End PathFacts.

(** ** The decorator, for any decorated function *)

Section HandlerFacts.

Context {ext : Externals}.

Variable A : Type.
Variable func : A -> M unit.
Variable args : A.

Lemma handler_trace :
  exists suffix,
    fst (_exception_handler func args) = fst (func args) ++ suffix
    /\ forallb is_log suffix = true.
Proof.
  unfold _exception_handler.
  destruct (func args) as [t [u|e|]]; cbn [fst].
  - exists []. now rewrite app_nil_r.
  - destruct e; cbn; eauto; exists []; now rewrite app_nil_r.
  - exists []. now rewrite app_nil_r.
Qed.

(** An exception that leaves the decorated function is one the body
    raised, it is neither an instance of [Exception] nor a
    [KeyboardInterrupt], and the handler has logged nothing for it. *)
Theorem handler_lets_only_base_exceptions_out (t : list event) (e : exn) :
  _exception_handler func args = (t, Raise e) ->
  is_Exception e = false
  /\ e <> KeyboardInterrupt
  /\ func args = (t, Raise e).
Proof.
  unfold _exception_handler.
  destruct (func args) as [t0 [u|e0|]]; [discriminate | | discriminate].
  destruct e0; cbn; intro H; try discriminate H;
    injection H as <- <-; repeat split; discriminate.
Qed.

(** The handler keeps everything the body did and adds at most two
    log records, and none when the body returned or was interrupted from
    the keyboard; it never returns a value other than [None]. *)
Theorem handler_only_appends_logs :
  exists suffix,
    fst (_exception_handler func args) = fst (func args) ++ suffix
    /\ forallb is_log suffix = true
    /\ (List.length suffix <= 2)%nat
    /\ (forall u, snd (func args) = Ret u -> suffix = [])
    /\ (snd (func args) = Raise KeyboardInterrupt ->
        suffix = [] /\ snd (_exception_handler func args) = Ret tt).
Proof.
  unfold _exception_handler.
  destruct (func args) as [t [u|e|]]; cbn [fst snd].
  - exists []. rewrite app_nil_r. repeat split; auto; discriminate.
  - destruct e; cbn;
      try (exists []; rewrite app_nil_r; repeat split; auto; discriminate);
      eexists; (split; [reflexivity|]); repeat split; auto; discriminate.
  - exists []. rewrite app_nil_r. repeat split; auto; discriminate.
Qed.

End HandlerFacts.

Section MainFacts.

Context {ext : Externals}.

Lemma main_events (P : event -> bool) (fuel : nat) (argv : parsed) :
  (forall l s, P (EvLog l s) = false) ->
  existsb P (fst (main fuel argv)) = existsb P (fst (main_wrapped fuel argv)).
Proof.
  intro HP. unfold main.
  destruct (handler_trace _ (main_wrapped fuel) argv) as (suffix & -> & Hlogs).
  rewrite existsb_app.
  assert (existsb P suffix = false) as ->; [|apply orb_false_r].
  induction suffix as [|ev rest IH]; [reflexivity|].
  cbn in Hlogs |- *. apply andb_true_iff in Hlogs as [Hev Hrest].
  destruct ev; try discriminate Hev. rewrite HP. now apply IH.
Qed.

End MainFacts.

(** ** Runs of the decorated [main] *)

Section MainRuns.

Context {ext : Externals}.

Variable fuel : nat.
Variable a : Arguments.

Ltac by_path :=
  let Hp := fresh "Hp" in
  let r := fresh "r" in
  let Hr := fresh "Hr" in
  pose proof (main_wrapped_path fuel a) as Hp;
  remember (main_wrapped fuel (Parsed a)) as r eqn:Hr;
  clear Hr; destruct Hp; cbn [fst snd].

Ltac resize_trace :=
  match goal with
  | H : _resize_portrait _ _ = (?tr, _) |- _ =>
      rewrite (resize_trace_of _ _ _ _ H)
  end.

Ltac none_of :=
  try resize_trace;
  rewrite ?existsb_app, ?header_events, ?_resize_portrait_events,
    ?playback_events by reflexivity;
  cbn; try reflexivity.

(** When [Image.open] raises an [Exception], whatever the other
    options are, [main] logs the catch-all message and the text of the
    exception and returns; no generator is built. *)
Theorem main_reports_open_failure (cls msg : string) :
  Image_open (file_path a) = inl (OtherException cls msg) ->
  main fuel (Parsed a)
  = (header a ++ [EvLog ERROR "Error! Unexpected exception caught:";
                  EvLog INFO msg],
     Ret tt).
Proof.
  intro Hopen. unfold main, _exception_handler.
  now rewrite (run_open_fails fuel a _ Hopen).
Qed.

(** With [--disable-logging] the first thing a run does is set the
    logger to ERROR, and it prints neither logo, author line nor
    delimiter on any path. *)
Theorem disable_logging_hides_banner :
  disable_logging a = true ->
  existsb is_banner (fst (main fuel (Parsed a))) = false
  /\ exists rest, fst (main fuel (Parsed a)) = EvSetLevel ERROR :: rest.
Proof.
  intro Hdl.
  assert (Hheader : header a = [EvSetLevel ERROR; EvLog INFO "Generating...";
                                EvImageOpen (file_path a)]).
  { unfold header. now rewrite Hdl. }
  split.
  - rewrite main_events by reflexivity.
    by_path; try resize_trace;
      rewrite ?existsb_app, ?Hheader, ?_resize_portrait_events,
        ?playback_events by reflexivity; reflexivity.
  - unfold main.
    destruct (handler_trace _ (main_wrapped fuel) (Parsed a))
      as (suffix & -> & _).
    by_path; rewrite Hheader; cbn; eauto.
Qed.

(** Without [--disable-logging] a run starts with the logo on the rich
    console, the author line and the delimiter, and never changes the
    level of the logger. *)
Theorem logging_shows_banner_first :
  disable_logging a = false ->
  existsb is_set_level (fst (main fuel (Parsed a))) = false
  /\ exists rest,
      fst (main fuel (Parsed a))
      = EvBanner Console_print TEXT_LOGO
        :: EvBanner builtin_print
             ("Author: " ++ __author__ ++ " <" ++ __author_email__
              ++ ">  Version: " ++ __version__)%string
        :: EvBanner builtin_print LOGO_DELIMITER
        :: EvLog INFO "Generating..." :: rest.
Proof.
  intro Hdl.
  assert (Hheader : header a
                    = [EvBanner Console_print TEXT_LOGO;
                       EvBanner builtin_print
                         ("Author: " ++ __author__ ++ " <" ++ __author_email__
                          ++ ">  Version: " ++ __version__)%string;
                       EvBanner builtin_print LOGO_DELIMITER;
                       EvLog INFO "Generating...";
                       EvImageOpen (file_path a)]).
  { unfold header. now rewrite Hdl. }
  split.
  - rewrite main_events by reflexivity.
    by_path; try resize_trace;
      rewrite ?existsb_app, ?Hheader, ?_resize_portrait_events,
        ?playback_events by reflexivity; reflexivity.
  - unfold main.
    destruct (handler_trace _ (main_wrapped fuel) (Parsed a))
      as (suffix & -> & _).
    by_path; rewrite Hheader; cbn [app]; eauto.
Qed.

(** A static run gives [Generator] the image that [Image.resize]
    returned for the image [Image.open] returned, resized to the
    requested width, or to 100 when none or 0 was requested. *)
Theorem static_generator_gets_resized_image :
  gif a = false ->
  generator_input_is
    (fun resized =>
       exists decoded h,
         Image_open (file_path a) = inr decoded
         /\ Image_resize decoded (target_width (width a), h) = inr resized)
    (fst (main fuel (Parsed a))).
Proof.
  intro Hstatic. unfold generator_input_is.
  assert (Hother : forall t,
             existsb (fun ev => match ev with
                                | EvGenerator _ _ _ _ => true
                                | _ => false
                                end) t = false ->
             Forall (fun ev => match ev with
                               | EvGenerator resized _ _ _ =>
                                   exists decoded h,
                                     Image_open (file_path a) = inr decoded
                                     /\ Image_resize decoded
                                          (target_width (width a), h)
                                        = inr resized
                               | _ => True
                               end) t).
  { intros t. apply existsb_false_Forall.
    intros [] H; try exact I; discriminate H. }
  unfold main.
  destruct (handler_trace _ (main_wrapped fuel) (Parsed a))
    as (suffix & -> & Hlogs).
  apply Forall_app. split.
  2: { apply Hother. clear - Hlogs.
       induction suffix as [|ev rest IH]; [reflexivity|].
       cbn in Hlogs |- *. apply andb_true_iff in Hlogs as [Hev Hrest].
       destruct ev; try discriminate Hev. now apply IH. }
  assert (Hhead : Forall (fun ev => match ev with
                                    | EvGenerator resized _ _ _ =>
                                        exists decoded h,
                                          Image_open (file_path a) = inr decoded
                                          /\ Image_resize decoded
                                               (target_width (width a), h)
                                             = inr resized
                                    | _ => True
                                    end) (header a)).
  { apply Hother. now apply header_events. }
  by_path; try congruence;
    first [ exact Hhead | apply Forall_app; split; [exact Hhead|] ];
    first [ solve [apply Hother; none_of]
          | apply Forall_app; split; [solve [apply Hother; none_of]|] ].
  all: match goal with
       | H : _resize_portrait _ _ = (_, Ret _) |- _ =>
           destruct (_resize_portrait_returns _ _ _ _ H) as (h & _ & Hresize)
       end.
  all: constructor;
    [do 2 eexists; split; eassumption | apply Hother; reflexivity].
Qed.

End MainRuns.

Section MainRuns2.

Context {ext : Externals}.

Variable fuel : nat.
Variable a : Arguments.

Ltac by_path_at f :=
  let Hp := fresh "Hp" in
  let r := fresh "r" in
  let Hr := fresh "Hr" in
  pose proof (main_wrapped_path f a) as Hp;
  remember (main_wrapped f (Parsed a)) as r eqn:Hr;
  clear Hr; destruct Hp; cbn [fst snd].

Ltac resize_trace :=
  match goal with
  | H : _resize_portrait _ _ = (?tr, _) |- _ =>
      rewrite (resize_trace_of _ _ _ _ H)
  end.

Ltac none_of :=
  try resize_trace;
  rewrite ?existsb_app, ?header_events, ?_resize_portrait_events,
    ?playback_events by reflexivity;
  cbn; try reflexivity.

Lemma existsb_false_filter (P : event -> bool) (t : list event) :
  existsb P t = false -> filter P t = [].
Proof.
  induction t as [|ev t IH]; [reflexivity|].
  cbn. destruct (P ev); [discriminate | exact IH].
Qed.

Lemma main_filter (P : event -> bool) (argv : parsed) :
  (forall l s, P (EvLog l s) = false) ->
  filter P (fst (main fuel argv)) = filter P (fst (main_wrapped fuel argv)).
Proof.
  intro HP. unfold main.
  destruct (handler_trace _ (main_wrapped fuel) argv) as (suffix & -> & Hlogs).
  rewrite filter_app.
  assert (filter P suffix = []) as ->; [|apply app_nil_r].
  induction suffix as [|ev rest IH]; [reflexivity|].
  cbn in Hlogs |- *. apply andb_true_iff in Hlogs as [Hev Hrest].
  destruct ev; try discriminate Hev. rewrite HP. now apply IH.
Qed.

(** A run asks the generator for output at most once, and by the
    method of its mode only: a gif run never calls [generate_art], a
    static run never calls [generate_gif_frames]. *)
Theorem one_generation_method :
  (List.length
     (filter (fun ev => is_generate_art ev || is_generate_gif_frames ev)
             (fst (main fuel (Parsed a)))) <= 1)%nat
  /\ (gif a = true ->
      existsb is_generate_art (fst (main fuel (Parsed a))) = false)
  /\ (gif a = false ->
      existsb is_generate_gif_frames (fst (main fuel (Parsed a))) = false).
Proof.
  split; [|split].
  - rewrite main_filter by reflexivity.
    by_path_at fuel; try resize_trace;
      rewrite ?filter_app;
      rewrite ?(existsb_false_filter _ (header a)),
        ?(existsb_false_filter _ (fst (_resize_portrait _ _))),
        ?(existsb_false_filter _ (fst (playback _ _ _ _ _)))
        by (first [ now apply header_events
                  | now apply _resize_portrait_events
                  | now apply playback_events ]);
      cbn; lia.
  - intro Hgif. rewrite main_events by reflexivity.
    by_path_at fuel; try congruence; none_of.
  - intro Hgif. rewrite main_events by reflexivity.
    by_path_at fuel; try congruence; none_of.
Qed.

(** A gif run, and any run without a non-empty output path, neither
    opens nor writes a file. *)
Theorem files_only_for_static_out :
  gif a = true \/ truthy_str (out a) = false ->
  existsb is_file_event (fst (main fuel (Parsed a))) = false.
Proof.
  intro H. rewrite main_events by reflexivity.
  assert (Hout : forall file, out a = Some file -> file <> "" ->
                              truthy_str (out a) = true).
  { intros file -> Hfile. destruct file; [congruence | reflexivity]. }
  by_path_at fuel; none_of;
    destruct H as [H|H]; try congruence;
    match goal with
    | Ho : out a = Some ?f, Hf : ?f <> "" |- _ =>
        rewrite (Hout f Ho Hf) in H; discriminate H
    end.
Qed.

(** When the output file cannot be opened, the art that was generated
    is neither written nor printed: the run logs "Generated!", then the
    catch-all message with the text of the exception, and returns. *)
Theorem unwritable_output_loses_art (image resized : Image)
        (tr : list event) (art file cls msg : string) :
  Image_open (file_path a) = inr image ->
  gif a = false ->
  _resize_portrait image (width a) = (tr, Ret resized) ->
  generate_art_of a resized = inr art ->
  out a = Some file ->
  file <> "" ->
  open_for_writing file = Some (OtherException cls msg) ->
  main fuel (Parsed a)
  = (header a ++ tr
     ++ [generator_call a resized; EvGenerateArt; EvLog SUCCESS "Generated!";
         EvFileOpen file "w" "utf-8";
         EvLog ERROR "Error! Unexpected exception caught:"; EvLog INFO msg],
     Ret tt).
Proof.
  intros Hopen Hgif Hres Hart Hout Hfile Hwrite.
  unfold main, _exception_handler.
  rewrite (run_static_save_fails fuel a image resized tr art file _
             Hopen Hgif Hres Hart Hout Hfile Hwrite).
  cbn. now rewrite <- !app_assoc.
Qed.

(** A gif run without width and output path generates the frames once,
    logs "Generated!" and plays them with the printer of the mode:
    without [--repeat] each frame once, in order, each followed by the
    sleep, and the run returns; with [--repeat] the run never returns
    and every iteration plays the same sequence. *)
Theorem gif_run_plays_generated_frames (image : Image)
        (frames : list string) (d : Duration) :
  Image_open (file_path a) = inr image ->
  gif a = true ->
  truthy_int (width a) = false ->
  truthy_str (out a) = false ->
  generate_gif_frames_of a image = inr (frames, d) ->
  (repeat a = false ->
   main (S fuel) (Parsed a)
   = (header a
      ++ [generator_call a image; EvGenerateGifFrames;
          EvLog SUCCESS "Generated!"]
      ++ one_pass (p_printer (palettes (mode a))) frames d,
      Ret tt))
  /\ (repeat a = true ->
      main fuel (Parsed a)
      = (header a
         ++ [generator_call a image; EvGenerateGifFrames;
             EvLog SUCCESS "Generated!"]
         ++ List.concat
              (List.repeat (one_pass (p_printer (palettes (mode a))) frames d)
                 fuel),
         Running)).
Proof.
  intros Hopen Hgif Hw Hout Hframes.
  split; intro Hrep; unfold main, _exception_handler.
  - rewrite (run_gif_play (S fuel) a image frames d Hopen Hgif Hw Hout Hframes).
    now rewrite Hrep, playback_no_repeat.
  - rewrite (run_gif_play fuel a image frames d Hopen Hgif Hw Hout Hframes).
    now rewrite Hrep, playback_repeat.
Qed.

(** A static run, and a gif run without [--repeat], comes to an end. *)
Theorem main_ends_without_repeat :
  gif a = false \/ repeat a = false ->
  snd (main (S fuel) (Parsed a)) <> Running.
Proof.
  intro H. unfold main, _exception_handler.
  by_path_at (S fuel);
    try match goal with
        | |- context [playback] =>
            destruct H as [H|H]; [congruence|];
            rewrite H, playback_no_repeat
        end;
    try match goal with
        | |- context [Raise ?e] => is_var e; destruct e
        end;
    cbn; discriminate.
Qed.

(** [--width 0] is the same as no [--width], and [--out ""] the same
    as no [--out], in every mode. *)
Theorem zero_width_and_empty_out_are_absent :
  main fuel (Parsed (with_width a (Some 0)))
  = main fuel (Parsed (with_width a None))
  /\ main fuel (Parsed (with_out a (Some "")))
     = main fuel (Parsed (with_out a None)).
Proof. split; reflexivity. Qed.

End MainRuns2.

Section OpenOnce.

Context {ext : Externals}.

(** Every run on parsed arguments calls [Image.open] once, on the
    path given by [--file-path]. *)
Theorem main_opens_the_file_once (fuel : nat) (a : Arguments) :
  filter (fun ev => match ev with
                    | EvImageOpen _ => true
                    | _ => false
                    end) (fst (main fuel (Parsed a)))
  = [EvImageOpen (file_path a)].
Proof.
  rewrite main_filter by reflexivity.
  assert (Hheader : filter (fun ev => match ev with
                                      | EvImageOpen _ => true
                                      | _ => false
                                      end) (header a)
                    = [EvImageOpen (file_path a)]).
  { unfold header. now destruct (disable_logging a). }
  pose proof (main_wrapped_path fuel a) as Hp.
  remember (main_wrapped fuel (Parsed a)) as r eqn:Hr. clear Hr.
  destruct Hp; cbn [fst];
    try match goal with
        | H : _resize_portrait _ _ = (?tr, _) |- _ =>
            rewrite (resize_trace_of _ _ _ _ H)
        end;
    rewrite ?filter_app, Hheader;
    rewrite ?(existsb_false_filter _ (fst (_resize_portrait _ _))),
      ?(existsb_false_filter _ (fst (playback _ _ _ _ _)))
      by (first [ now apply _resize_portrait_events
                | now apply playback_events ]);
    reflexivity.
Qed.

End OpenOnce.

(** ** More on [_resize_portrait] *)

Section ResizeEdges.

Context {ext : Externals}.

Lemma float_of_zero : float_of_int 0 = inr 0%float.
Proof. vm_compute. reflexivity. Qed.

Lemma float_of_hundred : float_of_int 100 = inr 100%float.
Proof. vm_compute. reflexivity. Qed.

Lemma truediv_by_zero (x : float) :
  truediv x 0%float
  = inl (OtherException "ZeroDivisionError" "float division by zero").
Proof. reflexivity. Qed.

(** For an image of width 0 [_resize_portrait] raises before it
    reaches the image library; with the default width the exception is
    the [ZeroDivisionError] of the float division. *)
Theorem resize_of_zero_width_image_raises (image : Image) (o : option Z) :
  fst (Image_size image) = 0 ->
  (exists e, _resize_portrait image o = ([], Raise e))
  /\ (truthy_int o = false ->
      _resize_portrait image o
      = ([], Raise (OtherException "ZeroDivisionError"
                      "float division by zero"))).
Proof.
  intro HW. rewrite _resize_portrait_eq. fold (target_width o).
  unfold portrait_height. rewrite HW, float_of_zero.
  split.
  - destruct (float_of_int (target_width o)) as [e|fwidth]; [eauto|].
    rewrite truediv_by_zero. eauto.
  - intro Hfalsy.
    assert (target_width o = 100) as ->.
    { destruct o as [w|]; [|reflexivity]. cbn in Hfalsy |- *.
      apply negb_false_iff in Hfalsy. now rewrite Hfalsy. }
    now rewrite float_of_hundred, truediv_by_zero.
Qed.

(** [_resize_portrait] calls the image library at most once, on the
    image it was given and with exactly the width requested (100 when
    the width is [None] or 0); what [Image.resize] returns or raises is
    what [_resize_portrait] returns or raises. *)
Theorem resize_calls_library_once (image : Image) (o : option Z) :
  (exists e, _resize_portrait image o = ([], Raise e))
  \/ (exists h,
        _resize_portrait image o
        = ([EvImageResize image (target_width o, h)],
           match Image_resize image (target_width o, h) with
           | inl e => Raise e
           | inr resized => Ret resized
           end)).
Proof.
  rewrite _resize_portrait_eq. fold (target_width o). cbv zeta.
  destruct (portrait_height _ _ _) as [e|h]; [left; eauto|].
  right. exists h. unfold call.
  now destruct (Image_resize image _).
Qed.

End ResizeEdges.

(** ** Playback of an animation without frames *)

Section EmptyPlayback.

Context {ext : Externals}.

(** With no frames nothing is printed and there is no sleep: without
    [--repeat] the loop returns at once, with [--repeat] it spins for
    ever. *)
Theorem empty_animation_is_silent (fuel : nat) (p : printer) (d : Duration) :
  playback (S fuel) p [] d false = ([], Ret tt)
  /\ playback fuel p [] d true = ([], Running).
Proof.
  split; [reflexivity|].
  induction fuel as [|fuel IH]; [reflexivity|].
  cbn [playback for_frames]. unfold ret. rewrite bind_ret.
  cbn [negb]. now rewrite IH.
Qed.

End EmptyPlayback.

(** ** The delimiter under the logo *)

Section LogoDelimiter.

Context {ext : Externals}.

Lemma times_length (c : ascii) (n : nat) : String.length (times c n) = n.
Proof. induction n as [|n IH]; cbn; congruence. Qed.

Lemma times_dashes (n : nat) : all_dashes (times "-"%char n) = true.
Proof. induction n as [|n IH]; [reflexivity | exact IH]. Qed.

Lemma prefix_length (s1 s2 : string) :
  String.prefix s1 s2 = true -> (String.length s1 <= String.length s2)%nat.
Proof.
  revert s2. induction s1 as [|c1 s1 IH]; intros s2 H; cbn; [lia|].
  destruct s2 as [|c2 s2]; [discriminate H|].
  cbn in H. destruct (Ascii.ascii_dec c1 c2); [|discriminate H].
  apply IH in H. cbn. lia.
Qed.

Lemma count_from_bound (sub : string) (s : string) (skip : nat) :
  (String.length sub * count_from skip sub s
   <= String.length s - skip)%nat.
Proof.
  revert skip. induction s as [|c rest IH]; intro skip; [cbn; lia|].
  cbn [count_from]. destruct skip as [|k].
  - destruct (String.prefix sub (String c rest)) eqn:Hp.
    + apply prefix_length in Hp. cbn [String.length] in Hp |- *.
      specialize (IH (Nat.pred (String.length sub))). nia.
    + specialize (IH 0%nat). cbn [String.length]. lia.
  - specialize (IH k). cbn [String.length]. lia.
Qed.

(** The delimiter printed under the logo consists of dashes only, and
    three times its length is at most the length of the first line of
    the logo. *)
Theorem logo_delimiter_is_dashes :
  all_dashes LOGO_DELIMITER = true
  /\ (3 * String.length LOGO_DELIMITER
      <= String.length (first_line TEXT_LOGO))%nat.
Proof.
  unfold LOGO_DELIMITER, LOGO_DELIMITER_LENGTH, count. split.
  - apply times_dashes.
  - rewrite times_length.
    pose proof (count_from_bound "???" (first_line TEXT_LOGO) 0) as H.
    cbn [String.length] in H. lia.
Qed.

End LogoDelimiter.

(** ** What the generator and the printer are given *)

Section ModeFacts.

Context {ext : Externals}.

Variable fuel : nat.
Variable a : Arguments.

Lemma logs_are_harmless (Q : event -> Prop) (suffix : list event) :
  (forall l s, Q (EvLog l s)) ->
  forallb is_log suffix = true -> Forall Q suffix.
Proof.
  intros HQ. induction suffix as [|ev rest IH]; intro H; constructor;
    cbn in H; apply andb_true_iff in H as [Hev Hrest].
  - destruct ev; try discriminate Hev. apply HQ.
  - now apply IH.
Qed.

Lemma one_pass_printer (p : printer) (frames : list string) (d : Duration) :
  Forall (fun ev => match ev with
                    | EvModePrinter p' _ => p' = p
                    | _ => True
                    end) (one_pass p frames d).
Proof.
  induction frames as [|frame rest IH]; [constructor|].
  cbn. repeat constructor. exact IH.
Qed.

Lemma playback_printer (n : nat) (p : printer) (frames : list string)
      (d : Duration) (r : bool) :
  Forall (fun ev => match ev with
                    | EvModePrinter p' _ => p' = p
                    | _ => True
                    end) (fst (playback n p frames d r)).
Proof.
  induction n as [|n IH]; [constructor|].
  cbn [playback]. rewrite for_frames_trace, bind_ret. cbn [fst].
  apply Forall_app. split; [apply one_pass_printer|].
  destruct r; cbn [negb]; [exact IH | constructor].
Qed.

(** Whatever a run prints through the printer of the mode, it prints
    with [Console().print] in mode rich and with [print] in every other
    mode. *)
Theorem art_is_printed_by_the_mode :
  Forall (fun ev => match ev with
                    | EvModePrinter p _ =>
                        p = p_printer (palettes (mode a))
                        /\ (p = Console_print <-> mode a = rich)
                    | _ => True
                    end) (fst (main fuel (Parsed a))).
Proof.
  assert (Hmode : p_printer (palettes (mode a)) = Console_print
                  <-> mode a = rich).
  { destruct (mode a); cbn; split; congruence. }
  assert (Hother : forall t,
             existsb (fun ev => match ev with
                                | EvModePrinter _ _ => true
                                | _ => false
                                end) t = false ->
             Forall (fun ev => match ev with
                               | EvModePrinter p _ =>
                                   p = p_printer (palettes (mode a))
                                   /\ (p = Console_print <-> mode a = rich)
                               | _ => True
                               end) t).
  { intros t. apply existsb_false_Forall.
    intros [] H; try exact I; discriminate H. }
  unfold main.
  destruct (handler_trace _ (main_wrapped fuel) (Parsed a))
    as (suffix & -> & Hlogs).
  apply Forall_app. split; [|now apply logs_are_harmless].
  pose proof (main_wrapped_path fuel a) as Hp.
  remember (main_wrapped fuel (Parsed a)) as r eqn:Hr. clear Hr.
  destruct Hp; cbn [fst];
    try match goal with
        | H : _resize_portrait _ _ = (?tr, _) |- _ =>
            rewrite (resize_trace_of _ _ _ _ H)
        end;
    repeat first
      [ apply Forall_nil
      | solve [apply Hother; first [ now apply header_events
                                   | now apply _resize_portrait_events
                                   | reflexivity ]]
      | apply Forall_app; split
      | apply Forall_cons; [first [exact I | now split]|] ].
  eapply Forall_impl; [|apply playback_printer].
  intros [] Hev; try exact I. cbn in Hev. subst. now split.
Qed.

(** A run builds at most one [Generator], and builds it with the
    palette and resetter of the selected mode and with the threshold
    exactly as parsed ([None] when [--threshold] is absent). *)
Theorem generator_gets_mode_and_threshold :
  (List.length (filter (fun ev => match ev with
                                  | EvGenerator _ _ _ _ => true
                                  | _ => false
                                  end) (fst (main fuel (Parsed a)))) <= 1)%nat
  /\ Forall (fun ev => match ev with
                       | EvGenerator _ pal res thr =>
                           pal = palette (palettes (mode a))
                           /\ res = resetter (palettes (mode a))
                           /\ thr = threshold a
                       | _ => True
                       end) (fst (main fuel (Parsed a))).
Proof.
  assert (Hother : forall t,
             existsb (fun ev => match ev with
                                | EvGenerator _ _ _ _ => true
                                | _ => false
                                end) t = false ->
             Forall (fun ev => match ev with
                               | EvGenerator _ pal res thr =>
                                   pal = palette (palettes (mode a))
                                   /\ res = resetter (palettes (mode a))
                                   /\ thr = threshold a
                               | _ => True
                               end) t).
  { intros t. apply existsb_false_Forall.
    intros [] H; try exact I; discriminate H. }
  split.
  - rewrite main_filter by reflexivity.
    pose proof (main_wrapped_path fuel a) as Hp.
    remember (main_wrapped fuel (Parsed a)) as r eqn:Hr. clear Hr.
    destruct Hp; cbn [fst];
      try match goal with
          | H : _resize_portrait _ _ = (?tr, _) |- _ =>
              rewrite (resize_trace_of _ _ _ _ H)
          end;
      rewrite ?filter_app;
      rewrite ?(existsb_false_filter _ (header a)),
        ?(existsb_false_filter _ (fst (_resize_portrait _ _))),
        ?(existsb_false_filter _ (fst (playback _ _ _ _ _)))
        by (first [ now apply header_events
                  | now apply _resize_portrait_events
                  | now apply playback_events ]);
      cbn; lia.
  - unfold main.
    destruct (handler_trace _ (main_wrapped fuel) (Parsed a))
      as (suffix & -> & Hlogs).
    apply Forall_app. split; [|now apply logs_are_harmless].
    pose proof (main_wrapped_path fuel a) as Hp.
    remember (main_wrapped fuel (Parsed a)) as r eqn:Hr. clear Hr.
    destruct Hp; cbn [fst];
      try match goal with
          | H : _resize_portrait _ _ = (?tr, _) |- _ =>
              rewrite (resize_trace_of _ _ _ _ H)
          end;
      repeat first
        [ apply Forall_nil
        | solve [apply Hother; first [ now apply header_events
                                     | now apply _resize_portrait_events
                                     | now apply playback_events
                                     | reflexivity ]]
        | apply Forall_app; split
        | apply Forall_cons; [first [exact I | now repeat split]|] ].
Qed.

End ModeFacts.

(** * More concrete runs *)

Module MoreRuns.

Lemma handler_lets_only_base_exceptions_out_witness :
  is_Exception (SystemExit 2) = false
  /\ SystemExit 2 <> KeyboardInterrupt
  /\ main_wrapped (ext := Demo.world) 1 (ParseExit 2)
     = ([], Raise (SystemExit 2)).
Proof.
  exact (handler_lets_only_base_exceptions_out (ext := Demo.world) _
           (main_wrapped 1) (ParseExit 2) [] (SystemExit 2) eq_refl).
Defined.

(** [-fp notes.txt -gf -w 50 -o out.txt] on a file that is no image:
    the failure to open it is what gets reported. *)
Lemma main_reports_open_failure_witness :
  main (ext := Faulty.world) 1 (Parsed Faulty.broken)
  = (header (ext := Faulty.world) Faulty.broken
     ++ [EvLog ERROR "Error! Unexpected exception caught:";
         EvLog INFO "cannot identify image file"],
     Ret tt).
Proof.
  exact (main_reports_open_failure (ext := Faulty.world) 1 Faulty.broken
           "UnidentifiedImageError" "cannot identify image file" eq_refl).
Defined.

Lemma disable_logging_hides_banner_witness :
  existsb is_banner (fst (main (ext := Faulty.world) 1 (Parsed Faulty.quiet)))
  = false
  /\ exists rest,
      fst (main (ext := Faulty.world) 1 (Parsed Faulty.quiet))
      = EvSetLevel ERROR :: rest.
Proof.
  exact (disable_logging_hides_banner (ext := Faulty.world) 1 Faulty.quiet
           eq_refl).
Defined.

Lemma logging_shows_banner_first_witness :
  existsb is_set_level
    (fst (main (ext := Faulty.world) 1 (Parsed Faulty.saved))) = false
  /\ exists rest,
      fst (main (ext := Faulty.world) 1 (Parsed Faulty.saved))
      = EvBanner Console_print "??????"
        :: EvBanner builtin_print "Author: a <a@b>  Version: 1.0"
        :: EvBanner builtin_print "--"
        :: EvLog INFO "Generating..." :: rest.
Proof.
  exact (logging_shows_banner_first (ext := Faulty.world) 1 Faulty.saved
           eq_refl).
Defined.

Lemma static_generator_gets_resized_image_witness :
  generator_input_is
    (fun resized =>
       exists decoded h,
         Image_open (Externals := Faulty.world) (file_path Faulty.saved)
         = inr decoded
         /\ Image_resize (Externals := Faulty.world) decoded (100, h)
            = inr resized)
    (fst (main (ext := Faulty.world) 1 (Parsed Faulty.saved))).
Proof.
  exact (static_generator_gets_resized_image (ext := Faulty.world) 1
           Faulty.saved eq_refl).
Defined.

Lemma files_only_for_static_out_witness :
  existsb is_file_event
    (fst (main (ext := Demo.world) 1 (Parsed Demo.gif_plain))) = false.
Proof.
  exact (files_only_for_static_out (ext := Demo.world) 1 Demo.gif_plain
           (or_introl eq_refl)).
Defined.

(** [-fp photo.jpg -o out.txt] on a disk that cannot be written. *)
Lemma unwritable_output_loses_art_witness :
  main (ext := Faulty.world) 1 (Parsed Faulty.saved)
  = (header (ext := Faulty.world) Faulty.saved
     ++ [EvImageResize (ext := Faulty.world) (640, 480) (100, 75)]
     ++ [generator_call (ext := Faulty.world) Faulty.saved (100, 75); EvGenerateArt;
         EvLog SUCCESS "Generated!"; EvFileOpen "out.txt" "w" "utf-8";
         EvLog ERROR "Error! Unexpected exception caught:";
         EvLog INFO "Permission denied"],
     Ret tt).
Proof.
  apply (unwritable_output_loses_art (ext := Faulty.world) 1 Faulty.saved
           (640, 480) (100, 75) _ "art" "out.txt" "PermissionError"
           "Permission denied");
    try reflexivity; discriminate.
Defined.

Lemma gif_run_plays_generated_frames_witness :
  (repeat Demo.gif_plain = false ->
   main (ext := Demo.world) 2 (Parsed Demo.gif_plain)
   = (header (ext := Demo.world) Demo.gif_plain
      ++ [generator_call (ext := Demo.world) Demo.gif_plain (4, 4); EvGenerateGifFrames;
          EvLog SUCCESS "Generated!"]
      ++ one_pass (ext := Demo.world) builtin_print ["f1"; "f2"] 100,
      Ret tt))
  /\ (repeat Demo.gif_plain = true ->
      main (ext := Demo.world) 1 (Parsed Demo.gif_plain)
      = (header (ext := Demo.world) Demo.gif_plain
         ++ [generator_call (ext := Demo.world) Demo.gif_plain (4, 4); EvGenerateGifFrames;
             EvLog SUCCESS "Generated!"]
         ++ List.concat
              (List.repeat (one_pass (ext := Demo.world) builtin_print ["f1"; "f2"] 100) 1),
         Running)).
Proof.
  exact (gif_run_plays_generated_frames (ext := Demo.world) 1 Demo.gif_plain
           (4, 4) ["f1"; "f2"] 100 eq_refl eq_refl eq_refl eq_refl eq_refl).
Defined.

Lemma main_ends_without_repeat_witness :
  snd (main (ext := Demo.world) 1 (Parsed Demo.gif_plain)) <> Running.
Proof.
  exact (main_ends_without_repeat (ext := Demo.world) 0 Demo.gif_plain
           (or_intror eq_refl)).
Defined.

Lemma resize_of_zero_width_image_raises_witness :
  (exists e, _resize_portrait (ext := Faulty.world) (0, 10) None
             = ([], Raise e))
  /\ (truthy_int None = false ->
      _resize_portrait (ext := Faulty.world) (0, 10) None
      = ([], Raise (OtherException "ZeroDivisionError"
                      "float division by zero"))).
Proof.
  exact (resize_of_zero_width_image_raises (ext := Faulty.world) (0, 10) None
           eq_refl).
Defined.

End MoreRuns.
